(** * AI Tic-Tac-Toe: the move-selection core and the game orchestrator

    A shallow embedding of [types.ts], [data/trainingData.ts],
    [services/geminiService.ts] and the state logic of [App.tsx].

    - a JavaScript array is a [list]; [arr[i]] is stdpp's lookup [arr !! i],
      whose [None] is JavaScript's [undefined];
    - a board cell of type [Player | null] is an [option Player], [None]
      being [null];
    - a function that can throw (or an async function that can reject)
      returns a [Completion];
    - [Math.random()] is a rational argument [r], with [0 <= r < 1] where a
      statement depends on it;
    - React state is one record, each handler a function on it, and an
      [aiMove] call that is suspended at an [await] is a [Task] of the
      system state. *)

From Stdlib Require Import QArith Qround Lia.
From Stdlib Require Import Ascii String.
From stdpp Require Import base decidable list strings pretty gmap.

Local Open Scope nat_scope.

(** ** types.ts *)

Inductive Player := X | O.

#[global] Instance Player_eq_dec : EqDecision Player.
Proof. solve_decision. Defined.

(** [Player | null] *)
Abbreviation Cell := (option Player).
Abbreviation null := (@None Player).

(** [BoardState = (Player | null)[]] *)
Abbreviation BoardState := (list Cell).

Inductive Difficulty := Easy | Medium | Hard | Trained.

#[global] Instance Difficulty_eq_dec : EqDecision Difficulty.
Proof. solve_decision. Defined.

Record Scores := mkScores { player : nat; ai : nat; draws : nat }.

(** ** constants.ts *)

(** A winning combination [[a, b, c]]. *)
Abbreviation Line := (nat * nat * nat)%type.

(** Modelled from the spec: [WINNING_COMBINATIONS] of constants.ts, a file
    that is not among the sources.  The spec fixes its content (section 3:
    "one of 8 fixed triples of indices: 3 rows, 3 columns, 2 diagonals") and
    its order (section 4.1: "rows first, then columns, then diagonals"). *)
Definition WINNING_COMBINATIONS : list Line :=
  [ (0, 1, 2); (3, 4, 5); (6, 7, 8);
    (0, 3, 6); (1, 4, 7); (2, 5, 8);
    (0, 4, 8); (2, 4, 6) ].

(** ** Arrays *)

(** [arr[i] = v] for an index inside the array.  Every write of the modelled
    code is in range: [findWinningMove] and [aiMove] write only where
    [board[i] === null], and the index of [handleCellClick] is the position
    of a rendered cell ([board.map((cell, index) => ...)]), which the
    transition system below requires of a click.  (Out of range JavaScript
    would extend the array; this model leaves the list as it is.) *)
Definition array_set (board : BoardState) (i : nat) (v : Cell) : BoardState :=
  <[ i := v ]> board.

(** ** The Win/Draw evaluator of geminiService.ts *)

Record WinnerInfo := mkWinnerInfo { winner : Player; line : Line }.

(** [board[a] && board[a] === board[b] && board[a] === board[c]], with the
    mark [board[a]] when the test passes. *)
Definition line_winner (board : BoardState) (combination : Line) : option Player :=
  let '(a, b, c) := combination in
  match board !! a with
  | Some (Some p) =>
      if bool_decide (board !! a = board !! b) && bool_decide (board !! a = board !! c)
      then Some p else None
  | _ => None
  end.

(** The loop [for (const combination of ...)] with its early [return]. *)
Fixpoint first_winner (board : BoardState) (combinations : list Line) : option WinnerInfo :=
  match combinations with
  | [] => None
  | combination :: rest =>
      match line_winner board combination with
      | Some p => Some (mkWinnerInfo p combination)
      | None => first_winner board rest
      end
  end.

Definition checkWinner (board : BoardState) : option WinnerInfo :=
  first_winner board WINNING_COMBINATIONS.

(** ** The heuristic move selector of geminiService.ts *)

(** The body of [for (let i = ...; i < 9; i++)] over [indices]. *)
Fixpoint findWinningMove_loop (board : BoardState) (p : Player) (indices : list nat) : option nat :=
  match indices with
  | [] => None
  | i :: rest =>
      if bool_decide (board !! i = Some null) then
        let tempBoard := array_set board i (Some p) in
        match checkWinner tempBoard with
        | Some winnerInfo =>
            if bool_decide (winner winnerInfo = p) then Some i
            else findWinningMove_loop board p rest
        | None => findWinningMove_loop board p rest
        end
      else findWinningMove_loop board p rest
  end.

Definition findWinningMove (board : BoardState) (p : Player) : option nat :=
  findWinningMove_loop board p (seq 0 9).

(** [Math.floor(r * n)] for the random number [r] and a length [n].  The
    product is taken exactly; for the lengths at hand (nine at most) the
    rounded product of JavaScript stays below [n] just as well, so that both
    range over the indices 0..n-1. *)
Definition random_index (r : Q) (n : nat) : Z :=
  Qfloor (r * inject_Z (Z.of_nat n)).

(** [arr[k]] for an integer [k]: [undefined] below zero and past the end. *)
Definition array_get_Z {A} (arr : list A) (k : Z) : option A :=
  if (k <? 0)%Z then None else arr !! Z.to_nat k.

(** [indices.filter(i => board[i] === null)] *)
Definition available_among (board : BoardState) (indices : list nat) : list nat :=
  filter (λ i, board !! i = Some null) indices.

(** [board.map((cell, index) => cell === null ? index : null)
          .filter(i => i !== null)] *)
Definition availableCells (board : BoardState) : list nat :=
  omap id (imap (λ index cell, if bool_decide (cell = null) then Some index else None) board).

(** [getMediumAIMove(board)], [r] being what its one call of [Math.random]
    returns.  [None] is [undefined], the value of [availableCells[0]] on a
    board with no empty cell. *)
Definition getMediumAIMove (board : BoardState) (r : Q) : option nat :=
  match findWinningMove board O with
  | Some winningMove => Some winningMove
  | None =>
  match findWinningMove board X with
  | Some blockingMove => Some blockingMove
  | None =>
  let center := 4 in
  if bool_decide (board !! center = Some null) then Some center else
  let corners := [0; 2; 6; 8] in
  let availableCorners := available_among board corners in
  if 0 <? length availableCorners then
    array_get_Z availableCorners (random_index r (length availableCorners))
  else
  let sides := [1; 3; 5; 7] in
  let availableSides := available_among board sides in
  if 0 <? length availableSides then
    array_get_Z availableSides (random_index r (length availableSides))
  else
  availableCells board !! 0
  end end.

(** ** data/trainingData.ts *)

Module trainingData.

Record GameSequence := mkGameSequence { winner : Player; moves : list nat }.

Definition winningGameSequences : list GameSequence :=
  [ mkGameSequence O [0; 4; 1; 2; 3; 6];
    mkGameSequence O [8; 4; 2; 6; 5];
    mkGameSequence O [0; 1; 4; 2; 8];
    mkGameSequence O [2; 4; 5; 3; 8];
    mkGameSequence O [6; 4; 7; 1; 8];
    mkGameSequence O [0; 3; 4; 5; 8];
    mkGameSequence O [2; 5; 4; 3; 6];
    mkGameSequence X [4; 0; 1; 2; 7];
    mkGameSequence X [4; 2; 7; 6; 1];
    mkGameSequence X [0; 1; 2; 5; 4; 3; 8];
    mkGameSequence X [0; 4; 3; 5; 6];
    mkGameSequence X [2; 4; 1; 7; 0];
    mkGameSequence X [8; 4; 0; 2; 1; 6];
    mkGameSequence X [4; 8; 6; 7; 2];
    mkGameSequence O [4; 0; 6; 3; 2];
    mkGameSequence O [4; 8; 2; 5; 6];
    mkGameSequence O [1; 4; 0; 8; 2];
    mkGameSequence O [3; 4; 0; 8; 6];
    mkGameSequence O [0; 2; 1; 3; 4; 5; 6; 7; 8];
    mkGameSequence O [8; 7; 6; 5; 4; 3; 2; 1; 0] ].

End trainingData.

(** ** The training-example retriever of [getTrainedAIMove] *)

(** [arr.every((x, index) => f(x, index))], from position [index] on. *)
Fixpoint every_from {A} (f : A → nat → bool) (arr : list A) (index : nat) : bool :=
  match arr with
  | [] => true
  | x :: rest => f x index && every_from f rest (S index)
  end.

Definition every {A} (f : A → nat → bool) (arr : list A) : bool :=
  every_from f arr 0.

(** [moveHistory.every((move, index) => move === seq.moves[index])] *)
Definition history_matches (moveHistory : list nat) (seq : trainingData.GameSequence) : bool :=
  every (λ move index, bool_decide (Some move = trainingData.moves seq !! index)) moveHistory.

(** [corpus.filter(seq => ...).slice(0, 3)]: the entries that the prompt of
    the Trained tier quotes. *)
Definition relevantSequences (corpus : list trainingData.GameSequence)
    (moveHistory : list nat) : list trainingData.GameSequence :=
  take 3 (filter (λ seq, history_matches moveHistory seq = true) corpus).

(** [arr.join(sep)] on strings. *)
Fixpoint join (sep : string) (arr : list string) : string :=
  match arr with
  | [] => ""
  | [s] => s
  | s :: rest => s +:+ sep +:+ join sep rest
  end.

Definition newline : string := String "010"%char "".

Definition player_string (p : Player) : string :=
  match p with X => "X" | O => "O" end.

(** The template string that [.map] applies to a retrieved sequence. *)
Definition example_line (seq : trainingData.GameSequence) : string :=
  "Example of a winning sequence: " +:+ join " -> " (pretty <$> trainingData.moves seq)
  +:+ " resulted in a win for '" +:+ player_string (trainingData.winner seq) +:+ "'.".

Definition relevantExamples (moveHistory : list nat) : string :=
  join newline (example_line <$> relevantSequences trainingData.winningGameSequences moveHistory).

(** ** Prompts *)

(** [board.slice(i, i + 3)] *)
Definition slice {A} (arr : list A) (i j : nat) : list A :=
  take (j - i) (drop i arr).

(** [getBoardString]: the loop [for (let i = 0; i < 9; i += 3)] is unrolled. *)
Definition getBoardString (board : BoardState) : string :=
  let row i := join " | " ((λ cell : Cell, default " " (player_string <$> cell)) <$> slice board i (i + 3)) in
  let rule := newline +:+ "---------" +:+ newline in
  row 0 +:+ rule +:+ row 3 +:+ rule +:+ row 6.

(** ** Completions *)

(** How a call ends: with a value, or with a thrown error (for an async
    function: a resolved or a rejected promise). *)
Inductive Completion (A : Type) :=
  | Return (a : A)
  | Throw (message : string).
Arguments Return {A} a.
Arguments Throw {A} message.

Definition bind {A B} (c : Completion A) (k : A → Completion B) : Completion B :=
  match c with
  | Return a => k a
  | Throw message => Throw message
  end.

(** [x ← c; k] is stdpp's notation for [bind c (λ x, k)]. *)
#[global] Instance Completion_bind : MBind Completion := λ A B k c, bind c k.

(** [try { body } catch (error) { handler }] *)
Definition try_catch {A} (body : Completion A) (handler : string → Completion A) : Completion A :=
  match body with
  | Return a => Return a
  | Throw message => handler message
  end.

(** ** JavaScript values out of [JSON.parse] *)

Inductive JSNumber :=
  | Finite (q : Q)
  | PosInfinity
  | NegInfinity
  | NaN.

#[local] Set Warnings "-register-all".
Inductive JSValue :=
  | JSNull
  | JSBool (b : bool)
  | JSNum (n : JSNumber)
  | JSString (s : string)
  | JSArray (elements : list JSValue)
  | JSObject (properties : list (string * JSValue)).

(** [n >= 0] *)
Definition number_ge_0 (n : JSNumber) : bool :=
  match n with
  | Finite q => Qle_bool 0 q
  | PosInfinity => true
  | NegInfinity | NaN => false
  end.

(** [n <= 8] *)
Definition number_le_8 (n : JSNumber) : bool :=
  match n with
  | Finite q => Qle_bool q (inject_Z 8)
  | NegInfinity => true
  | PosInfinity | NaN => false
  end.

(** The array index that a number used as a property key denotes: a number
    is an index when it is a non-negative integer ([-0] is [0]). *)
Definition index_of_number (n : JSNumber) : option nat :=
  match n with
  | Finite q =>
      let q' := Qred q in
      if (Qden q' =? 1)%positive && (0 <=? Qnum q')%Z then Some (Z.to_nat (Qnum q')) else None
  | _ => None
  end.

(** [arr[n]] for a number [n] *)
Definition array_get_number {A} (arr : list A) (n : JSNumber) : option A :=
  match index_of_number n with
  | Some i => arr !! i
  | None => None
  end.

(** The own property [key] of a parsed object, whose keys are distinct. *)
Fixpoint get_property (key : string) (properties : list (string * JSValue)) : option JSValue :=
  match properties with
  | [] => None
  | (k, v) :: rest => if bool_decide (k = key) then Some v else get_property key rest
  end.

(** [jsonResponse.move]: a [TypeError] on [null], [undefined] on a value
    that has no such property. *)
Definition member_move (jsonResponse : JSValue) : Completion (option JSValue) :=
  match jsonResponse with
  | JSNull => Throw "TypeError: Cannot read properties of null (reading 'move')"
  | JSObject properties => Return (get_property "move" properties)
  | _ => Return None
  end.

(** [typeof move === 'number' && move >= 0 && move <= 8 && board[move] === null] *)
Definition move_is_valid (board : BoardState) (move : option JSValue) : bool :=
  match move with
  | Some (JSNum n) =>
      number_ge_0 n && number_le_8 n && bool_decide (array_get_number board n = Some null)
  | _ => false
  end.

(** The value that [return move] hands to the caller, as an array index. *)
Definition move_index (move : option JSValue) : option nat :=
  match move with
  | Some (JSNum n) => index_of_number n
  | _ => None
  end.

(** ** The remote-assisted selectors and the commentary generator *)

(** What the code passes to [ai.models.generateContent].  [contents] holds
    the values that the prompt template interpolates, in order; the fixed
    English text of the template is left out.  [responseSchema] asks for an
    object with an integer [move] ([jsonMove] records that the request sets
    it together with [responseMimeType]). *)
Record GenerateContentRequest := mkRequest {
  model : string;
  contents : list string;
  jsonMove : bool;
  temperature : Q;
  maxOutputTokens : option nat
}.

Section Remote.

(** [process.env.API_KEY], [None] being [undefined]. *)
Variable API_KEY : option string.

(** The external reasoning service: for an API key and a request, the
    [text] of the response ([None]: the response has no text) or a
    rejection.  Nothing is assumed about it. *)
Variable generateContent : string → GenerateContentRequest → Completion (option string).

(** [JSON.parse], of which nothing is assumed either. *)
Variable JSON_parse : string → Completion JSValue.

(** [getAIInstance]: the instance is represented by its API key.  The empty
    string is falsy as well. *)
Definition getAIInstance : Completion string :=
  match API_KEY with
  | Some key => if bool_decide (key = "") then Throw "API_KEY environment variable not set." else Return key
  | None => Throw "API_KEY environment variable not set."
  end.

(** [JSON.parse(response.text)]: an [undefined] argument is converted to
    the string [undefined] first. *)
Definition parse_text (text : option string) : Completion JSValue :=
  JSON_parse (default "undefined" text).

(** [const ai = getAIInstance()] and [await ai.models.generateContent(request)],
    the first two steps of the three exported functions: the [text] of the
    response. *)
Definition generated_text (request : GenerateContentRequest) : Completion (option string) :=
  ai ← getAIInstance;
  generateContent ai request.

(** The statements that [getHardAIMove] and [getTrainedAIMove] share, from
    [getAIInstance()] to [const move = jsonResponse.move]: the move that the
    service suggests for a request. *)
Definition suggested_move (request : GenerateContentRequest) : Completion (option JSValue) :=
  text ← generated_text request;
  jsonResponse ← parse_text text;
  member_move jsonResponse.

(** The [if]/[else] after it: return the validated move, or fall back to
    the heuristic selector. *)
Definition validated_or_medium (board : BoardState) (r : Q) (move : option JSValue) : Completion (option nat) :=
  if move_is_valid board move then Return (move_index move)
  else Return (getMediumAIMove board r).

Definition hard_request (board : BoardState) (moveHistory : list nat) : GenerateContentRequest :=
  let prompt := [getBoardString board; join ", " (pretty <$> moveHistory)] in
  mkRequest "gemini-2.5-flash" prompt true (1 # 10) None.

Definition getHardAIMove (board : BoardState) (moveHistory : list nat) (r : Q) : Completion (option nat) :=
  try_catch
    (move ← suggested_move (hard_request board moveHistory);
     validated_or_medium board r move)
    (λ error, Return (getMediumAIMove board r)).

Definition trained_request (board : BoardState) (moveHistory : list nat) : GenerateContentRequest :=
  let examples := relevantExamples moveHistory in
  let prompt :=
    [getBoardString board; join ", " (pretty <$> moveHistory);
     if bool_decide (examples = "") then "No direct examples, rely on your core strategy." else examples] in
  mkRequest "gemini-2.5-pro" prompt true 0 None.

Definition getTrainedAIMove (board : BoardState) (moveHistory : list nat) (r : Q) : Completion (option nat) :=
  try_catch
    (move ← suggested_move (trained_request board moveHistory);
     validated_or_medium board r move)
    (λ error, Return (getMediumAIMove board r)).

(** The character U+0022. *)
Definition double_quote : ascii := "034"%char.

(** [text.replace(re, '')], [re] being the global regular expression that
    matches the one character U+0022: every occurrence is removed. *)
Fixpoint remove_double_quotes (text : string) : string :=
  match text with
  | EmptyString => EmptyString
  | String c rest =>
      if bool_decide (c = double_quote) then remove_double_quotes rest
      else String c (remove_double_quotes rest)
  end.

(** [response.text.replace(...)]: a [TypeError] when [text] is [undefined]. *)
Definition replace_quotes (text : option string) : Completion string :=
  match text with
  | Some s => Return (remove_double_quotes s)
  | None => Throw "TypeError: Cannot read properties of undefined (reading 'replace')"
  end.

Definition commentary_request (board : BoardState) (aiMove : nat) : GenerateContentRequest :=
  let prompt := [getBoardString board; pretty aiMove] in
  mkRequest "gemini-2.5-flash" prompt false (9 # 10) (Some 20).

Definition getAICommentary (board : BoardState) (aiMove : nat) : Completion string :=
  try_catch
    (text ← generated_text (commentary_request board aiMove);
     replace_quotes text)
    (λ error, Return "Thinking...").

End Remote.

(** ** The state of App.tsx *)

#[global] Instance WinnerInfo_eq_dec : EqDecision WinnerInfo.
Proof. solve_decision. Defined.

(** The [useState] and [useLocalStorage] cells of the component. *)
Record AppState := mkAppState {
  board : BoardState;
  isPlayerTurn : bool;
  winnerInfo : option WinnerInfo;
  isDraw : bool;
  difficulty : Difficulty;
  scores : Scores;
  gamesPlayed : nat;
  isDifficultyModalOpen : bool;
  aiCommentary : string;
  isAiThinking : bool;
  moveHistory : list nat;
  isDarkMode : bool
}.

Definition setBoard (v : BoardState) (st : AppState) : AppState :=
  mkAppState v (isPlayerTurn st) (winnerInfo st) (isDraw st) (difficulty st) (scores st)
    (gamesPlayed st) (isDifficultyModalOpen st) (aiCommentary st) (isAiThinking st)
    (moveHistory st) (isDarkMode st).
Definition setIsPlayerTurn (v : bool) (st : AppState) : AppState :=
  mkAppState (board st) v (winnerInfo st) (isDraw st) (difficulty st) (scores st)
    (gamesPlayed st) (isDifficultyModalOpen st) (aiCommentary st) (isAiThinking st)
    (moveHistory st) (isDarkMode st).
Definition setWinnerInfo (v : option WinnerInfo) (st : AppState) : AppState :=
  mkAppState (board st) (isPlayerTurn st) v (isDraw st) (difficulty st) (scores st)
    (gamesPlayed st) (isDifficultyModalOpen st) (aiCommentary st) (isAiThinking st)
    (moveHistory st) (isDarkMode st).
Definition setIsDraw (v : bool) (st : AppState) : AppState :=
  mkAppState (board st) (isPlayerTurn st) (winnerInfo st) v (difficulty st) (scores st)
    (gamesPlayed st) (isDifficultyModalOpen st) (aiCommentary st) (isAiThinking st)
    (moveHistory st) (isDarkMode st).
Definition setDifficulty (v : Difficulty) (st : AppState) : AppState :=
  mkAppState (board st) (isPlayerTurn st) (winnerInfo st) (isDraw st) v (scores st)
    (gamesPlayed st) (isDifficultyModalOpen st) (aiCommentary st) (isAiThinking st)
    (moveHistory st) (isDarkMode st).
Definition setScores (v : Scores) (st : AppState) : AppState :=
  mkAppState (board st) (isPlayerTurn st) (winnerInfo st) (isDraw st) (difficulty st) v
    (gamesPlayed st) (isDifficultyModalOpen st) (aiCommentary st) (isAiThinking st)
    (moveHistory st) (isDarkMode st).
Definition setGamesPlayed (v : nat) (st : AppState) : AppState :=
  mkAppState (board st) (isPlayerTurn st) (winnerInfo st) (isDraw st) (difficulty st) (scores st)
    v (isDifficultyModalOpen st) (aiCommentary st) (isAiThinking st)
    (moveHistory st) (isDarkMode st).
Definition setIsDifficultyModalOpen (v : bool) (st : AppState) : AppState :=
  mkAppState (board st) (isPlayerTurn st) (winnerInfo st) (isDraw st) (difficulty st) (scores st)
    (gamesPlayed st) v (aiCommentary st) (isAiThinking st)
    (moveHistory st) (isDarkMode st).
Definition setAiCommentary (v : string) (st : AppState) : AppState :=
  mkAppState (board st) (isPlayerTurn st) (winnerInfo st) (isDraw st) (difficulty st) (scores st)
    (gamesPlayed st) (isDifficultyModalOpen st) v (isAiThinking st)
    (moveHistory st) (isDarkMode st).
Definition setIsAiThinking (v : bool) (st : AppState) : AppState :=
  mkAppState (board st) (isPlayerTurn st) (winnerInfo st) (isDraw st) (difficulty st) (scores st)
    (gamesPlayed st) (isDifficultyModalOpen st) (aiCommentary st) v
    (moveHistory st) (isDarkMode st).
Definition setMoveHistory (v : list nat) (st : AppState) : AppState :=
  mkAppState (board st) (isPlayerTurn st) (winnerInfo st) (isDraw st) (difficulty st) (scores st)
    (gamesPlayed st) (isDifficultyModalOpen st) (aiCommentary st) (isAiThinking st)
    v (isDarkMode st).
Definition setIsDarkMode (v : bool) (st : AppState) : AppState :=
  mkAppState (board st) (isPlayerTurn st) (winnerInfo st) (isDraw st) (difficulty st) (scores st)
    (gamesPlayed st) (isDifficultyModalOpen st) (aiCommentary st) (isAiThinking st)
    (moveHistory st) v.

(** The state of the first render: the [useLocalStorage] cells start from
    what the store holds (or from their defaults). *)
Definition initialState (storedDifficulty : Difficulty) (storedScores : Scores)
    (storedGamesPlayed : nat) (storedDarkMode : bool) : AppState :=
  mkAppState (replicate 9 null) true None false storedDifficulty storedScores
    storedGamesPlayed false "" false [] storedDarkMode.

(** The game outcome that a state shows, in the order in which [statusText]
    and the guards read it: [winnerInfo] first, then [isDraw]. *)
Inductive GameOutcome :=
  | InProgress
  | Win (mark : Player) (l : Line)
  | Draw.

Definition outcome (st : AppState) : GameOutcome :=
  match winnerInfo st with
  | Some w => Win (winner w) (line w)
  | None => if isDraw st then Draw else InProgress
  end.

(** [currentBoard.every(cell => cell !== null)] *)
Definition board_full (currentBoard : BoardState) : bool :=
  every (λ cell _, bool_decide (cell ≠ null)) currentBoard.

(** [checkGameStatus(currentBoard)].  Its loop over [WINNING_COMBINATIONS]
    is the loop of [checkWinner], with the state updates in the place of the
    [return].  [s] is the value of [scores] in the render that created the
    callback: [useLocalStorage]'s setter applies an updater function to the
    value it closed over. *)
Definition checkGameStatus (currentBoard : BoardState) (s : Scores) (st : AppState) : AppState :=
  match checkWinner currentBoard with
  | Some w =>
      let st := setWinnerInfo (Some w) st in
      let st := setScores (match winner w with
                           | X => mkScores (player s + 1) (ai s) (draws s)
                           | O => mkScores (player s) (ai s + 1) (draws s)
                           end) st in
      setAiCommentary (match winner w with X => "You got lucky..." | O => "Victory is mine!" end) st
  | None =>
      if board_full currentBoard then
        let st := setIsDraw true st in
        let st := setScores (mkScores (player s) (ai s) (draws s + 1)) st in
        setAiCommentary "A worthy opponent. It's a draw!" st
      else st
  end.

Definition restartGame (st : AppState) : AppState :=
  let st := setBoard (replicate 9 null) st in
  let st := setIsPlayerTurn true st in
  let st := setWinnerInfo None st in
  let st := setIsDraw false st in
  let st := setGamesPlayed (gamesPlayed st + 1) st in
  let st := setAiCommentary "" st in
  let st := setIsAiThinking false st in
  setMoveHistory [] st.

(** [board[index]] is truthy: the cell holds a mark. *)
Definition occupied (board : BoardState) (index : nat) : bool :=
  match board !! index with
  | Some (Some _) => true
  | _ => false
  end.

Definition handleCellClick (index : nat) (st : AppState) : AppState :=
  if occupied (board st) index || bool_decide (winnerInfo st ≠ None) || isDraw st || negb (isPlayerTurn st)
  then st
  else
    let newBoard := array_set (board st) index (Some X) in
    let st' := setBoard newBoard st in
    let st' := setMoveHistory (moveHistory st' ++ [index]) st' in
    let st' := setIsPlayerTurn false st' in
    checkGameStatus newBoard (scores st) st'.

(** ** [aiMove] and the event loop *)

(** An [aiMove] call that is suspended at an [await]: its two arguments and
    what its closure holds of the render that started it. *)
Record Task := mkTask {
  currentBoard : BoardState;
  currentMoveHistory : list nat;
  taskDifficulty : Difficulty;
  taskScores : Scores
}.

(** The state of the running application: the React state and the [aiMove]
    calls in flight. *)
Record System := mkSystem { app : AppState; tasks : list Task }.

(** The external service, as one call of [aiMove] meets it. *)
Abbreviation Service := (string → GenerateContentRequest → Completion (option string)).

(** What the user and the event loop can do.  [AiResumes k r service]
    resumes the [k]-th suspended [aiMove] and runs it to its end: [r] is what
    [Math.random] returns to it and [service] how the external service
    answers it. *)
Inductive Event :=
  | Click (index : nat)
  | ClickRestart
  | SelectDifficulty (level : Difficulty)
  | OpenDifficultyModal
  | CloseDifficultyModal
  | ToggleDarkMode
  | AiResumes (k : nat) (r : Q) (service : Service).

Section App.

Variable API_KEY : option string.
Variable JSON_parse : string → Completion JSValue.

(** [aiMove(currentBoard, currentMoveHistory)] up to its first [await]. *)
Definition aiMove_start (currentBoard : BoardState) (currentMoveHistory : list nat)
    (st : AppState) : AppState * option Task :=
  let st1 := setIsAiThinking true st in
  let st1 := setAiCommentary "Hmm, let me think..." st1 in
  if bool_decide (length (availableCells currentBoard) = 0) then
    (setIsAiThinking false st1, None)
  else
    (st1, Some (mkTask currentBoard currentMoveHistory (difficulty st) (scores st))).

(** The [switch (difficulty)] of [aiMove]. *)
Definition select_move (task : Task) (r : Q) (service : Service) : Completion (option nat) :=
  let available := availableCells (currentBoard task) in
  match taskDifficulty task with
  | Easy => Return (array_get_Z available (random_index r (length available)))
  | Medium => Return (getMediumAIMove (currentBoard task) r)
  | Hard => getHardAIMove API_KEY service JSON_parse (currentBoard task) (currentMoveHistory task) r
  | Trained => getTrainedAIMove API_KEY service JSON_parse (currentBoard task) (currentMoveHistory task) r
  end.

(** [aiMove] from the end of the simulated thinking time to its end.  The
    state is written only after the last [await], in one synchronous block
    (React applies its updates together), so the call runs here in one step
    on the state [st] of that moment: [setBoard] writes the board built
    from the argument [currentBoard], [setMoveHistory] updates the history
    of [st].  An awaited promise that rejects ends the call there, with no
    write. *)
Definition aiMove_resume (task : Task) (r : Q) (service : Service) (st : AppState) : AppState :=
  match select_move task r service with
  | Throw _ => st
  | Return move =>
      match move with
      | Some i =>
          if bool_decide (currentBoard task !! i = Some null) then
            let newBoard := array_set (currentBoard task) i (Some O) in
            let commentary :=
              if bool_decide (taskDifficulty task = Hard) || bool_decide (taskDifficulty task = Trained)
              then getAICommentary API_KEY service newBoard i
              else Return "" in
            match commentary with
            | Throw _ => st
            | Return text =>
                let st := setAiCommentary text st in
                let st := setBoard newBoard st in
                let st := setMoveHistory (moveHistory st ++ [i]) st in
                let st := checkGameStatus newBoard (taskScores task) st in
                let st := setIsPlayerTurn true st in
                setIsAiThinking false st
            end
          else setIsAiThinking false st
      | None => setIsAiThinking false st
      end
  end.

(** The dependencies of the [useEffect] that starts the AI. *)
Definition effect_deps (st : AppState) : bool * option WinnerInfo * bool * BoardState :=
  (isPlayerTurn st, winnerInfo st, isDraw st, board st).

(** The [useEffect] after the render that follows a change of state from
    [prev] to [next]: it runs when a dependency changed.  ([board] is
    compared by identity in React; every [setBoard] of this code comes with
    [isPlayerTurn] changing or ending [true], so that comparing contents
    starts [aiMove] in the same cases.) *)
Definition effect (prev next : AppState) (pending : list Task) : System :=
  if bool_decide (effect_deps prev ≠ effect_deps next)
     && (negb (isPlayerTurn next) && bool_decide (winnerInfo next = None) && negb (isDraw next))
  then
    let '(st, task) := aiMove_start (board next) (moveHistory next) next in
    mkSystem st (pending ++ option_list task)
  else mkSystem next pending.

(** One event, with the render and the effect that follow it.  A click
    comes from a rendered cell, so its index is inside the board. *)
Definition dispatch (e : Event) (sys : System) : System :=
  let st := app sys in
  match e with
  | Click index =>
      if bool_decide (index < length (board st))
      then effect st (handleCellClick index st) (tasks sys)
      else sys
  | ClickRestart => effect st (restartGame st) (tasks sys)
  | SelectDifficulty level =>
      effect st (restartGame (setIsDifficultyModalOpen false (setDifficulty level st))) (tasks sys)
  | OpenDifficultyModal => mkSystem (setIsDifficultyModalOpen true st) (tasks sys)
  | CloseDifficultyModal => mkSystem (setIsDifficultyModalOpen false st) (tasks sys)
  | ToggleDarkMode => mkSystem (setIsDarkMode (negb (isDarkMode st)) st) (tasks sys)
  | AiResumes k r service =>
      match tasks sys !! k with
      | Some task => effect st (aiMove_resume task r service st) (delete k (tasks sys))
      | None => sys
      end
  end.

Definition run (events : list Event) (sys : System) : System :=
  foldl (λ s e, dispatch e s) sys events.

Definition initialSystem (storedDifficulty : Difficulty) (storedScores : Scores)
    (storedGamesPlayed : nat) (storedDarkMode : bool) : System :=
  mkSystem (initialState storedDifficulty storedScores storedGamesPlayed storedDarkMode) [].

(** The states that the application can be in. *)
Definition reachable (sys : System) : Prop :=
  ∃ d s g dark events, run events (initialSystem d s g dark) = sys.

End App.

(** ** [useLocalStorage] of App.tsx *)

(** [window.localStorage]: the stored items, and whether the browser
    refuses access to the store ([getItem] and [setItem] throw a
    [SecurityError]) or has no room left ([setItem] throws a
    [QuotaExceededError]). *)
Record Storage := mkStorage {
  items : gmap string string;
  blocked : bool;
  exhausted : bool
}.

(** [localStorage.getItem(key)], [None] being [null]. *)
Definition getItem (store : Storage) (key : string) : Completion (option string) :=
  if blocked store then Throw "SecurityError" else Return (items store !! key).

(** [localStorage.setItem(key, value)] *)
Definition setItem (store : Storage) (key value : string) : Completion Storage :=
  if blocked store then Throw "SecurityError"
  else if exhausted store then Throw "QuotaExceededError"
  else Return (mkStorage (<[ key := value ]> (items store)) (blocked store) (exhausted store)).

Section useLocalStorage.

(** The type [T] of the stored value, with [JSON.parse] read at that type
    and [JSON.stringify]; nothing is assumed of either. *)
Context {T : Type}.
Variable JSON_parse_T : string → Completion T.
Variable JSON_stringify : T → Completion string.

(** The initialiser of [useState]: the stored value of the first render.
    An item that is [null] or the empty string is falsy. *)
Definition initialStoredValue (store : Storage) (key : string) (initialValue : T) : T :=
  match
    try_catch
      (item ← getItem store key;
       match item with
       | Some text => if bool_decide (text = "") then Return initialValue else JSON_parse_T text
       | None => Return initialValue
       end)
      (λ error, Return initialValue)
  with
  | Return v => v
  | Throw _ => initialValue
  end.

(** [setValue(value)], [value] being a new value or an updater function,
    from the render whose stored value is [storedValue]: the stored value
    and the store after the call.  [setStoredValue] runs before
    [setItem]; the [catch] swallows what the statements after it throw. *)
Definition setValue (store : Storage) (key : string) (storedValue : T) (value : T + (T → T))
    : T * Storage :=
  let valueToStore := match value with inl v => v | inr f => f storedValue end in
  match (text ← JSON_stringify valueToStore; setItem store key text) with
  | Return store' => (valueToStore, store')
  | Throw _ => (valueToStore, store)
  end.

End useLocalStorage.

(** ** Vocabulary of the statements *)

(** The three cells of [combination] hold the mark [M]. *)
Definition completed (board : BoardState) (combination : Line) (M : Player) : Prop :=
  let '(a, b, c) := combination in
  board !! a = Some (Some M) ∧ board !! b = Some (Some M) ∧ board !! c = Some (Some M).

(** No winning combination is completed. *)
Definition no_completed_line (board : BoardState) : Prop :=
  ∀ combination M, combination ∈ WINNING_COMBINATIONS → ¬ completed board combination M.

(** [w] is the first completed combination in the order of
    [WINNING_COMBINATIONS], with the mark that completes it. *)
Definition first_completed (board : BoardState) (w : WinnerInfo) : Prop :=
  completed board (line w) (winner w) ∧
  ∃ earlier later,
    WINNING_COMBINATIONS = earlier ++ line w :: later ∧
    ∀ combination M, combination ∈ earlier → ¬ completed board combination M.

(** A board of the game: nine cells. *)
Definition well_formed (board : BoardState) : Prop := length board = 9.

(** Every cell holds a mark. *)
Definition all_marked (board : BoardState) : Prop :=
  ∀ i cell, board !! i = Some cell → cell ≠ null.

(** Playing [p] on the empty cell [i] makes the evaluator report a win for
    [p]. *)
Definition wins_by_playing (b : BoardState) (p : Player) (i : nat) : Prop :=
  b !! i = Some null ∧
  ∃ w, checkWinner (array_set b i (Some p)) = Some w ∧ winner w = p.

(** [i] is the first cell of the scan 0..8 on which [p] wins by playing. *)
Definition first_winning_cell (b : BoardState) (p : Player) (i : nat) : Prop :=
  i < 9 ∧ wins_by_playing b p i ∧ ∀ j, j < i → ¬ wins_by_playing b p j.

(** Playing [p] on the empty cell [i] completes a winning combination. *)
Definition completes_line (b : BoardState) (p : Player) (i : nat) : Prop :=
  b !! i = Some null ∧
  ∃ combination, combination ∈ WINNING_COMBINATIONS ∧
    completed (array_set b i (Some p)) combination p.

(** The random number is in the range of [Math.random]. *)
Definition unit_interval (r : Q) : Prop := (0 <= r)%Q ∧ (r < 1)%Q.

(** The number [n] is the integer [i]. *)
Definition denotes (n : JSNumber) (i : nat) : Prop :=
  match n with
  | Finite q => q == inject_Z (Z.of_nat i)
  | _ => False
  end.

(** The number [n] lies between 0 and 8. *)
Definition in_range (n : JSNumber) : Prop :=
  match n with
  | Finite q => (0 <= q)%Q ∧ (q <= inject_Z 8)%Q
  | _ => False
  end.

(** The suggestion of the service passes validation as the move [i]: it
    is a number, the integer [i] of the range 0..8, and cell [i] is empty. *)
Definition validated (b : BoardState) (suggestion : Completion (option JSValue)) (i : nat) : Prop :=
  ∃ n, suggestion = Return (Some (JSNum n)) ∧ denotes n i ∧ i ≤ 8 ∧ b !! i = Some null.

(** The suggestion of the service is discarded: an error was raised on the
    way (no credentials, transport failure, text that does not parse, a
    parsed [null]), the [move] field is absent or is no number, the number
    is out of range or no integer, or the cell it names is not empty. *)
Inductive discarded (b : BoardState) : Completion (option JSValue) → Prop :=
  | discard_raised message :
      discarded b (Throw message)
  | discard_absent :
      discarded b (Return None)
  | discard_not_a_number v :
      (∀ n, v ≠ JSNum n) → discarded b (Return (Some v))
  | discard_out_of_range n :
      ¬ in_range n → discarded b (Return (Some (JSNum n)))
  | discard_not_an_integer n :
      (∀ i, ¬ denotes n i) → discarded b (Return (Some (JSNum n)))
  | discard_not_empty n i :
      denotes n i → b !! i ≠ Some null → discarded b (Return (Some (JSNum n))).

(** What the claim says of a remote-assisted selector that ends with
    [result] when the service suggested [suggestion]. *)
Definition validates_or_falls_back (b : BoardState) (r : Q)
    (suggestion : Completion (option JSValue)) (result : Completion (option nat)) : Prop :=
  (∀ i, validated b suggestion i → result = Return (Some i)) ∧
  (discarded b suggestion → result = Return (getMediumAIMove b r)) ∧
  ((∃ i, validated b suggestion i) ∨ discarded b suggestion) ∧
  (∃ move, result = Return move).

(** The same, read off the environment of the call rather than off the
    code: what the credentials, the service and [JSON.parse] do. *)

(** [value] is the first property named [key] of [properties]. *)
Definition first_property (properties : list (string * JSValue)) (key : string) (value : JSValue) : Prop :=
  ∃ before after, properties = before ++ (key, value) :: after ∧ key ∉ before.*1.

Section Response.

Variable API_KEY : option string.
Variable generateContent : string → GenerateContentRequest → Completion (option string).
Variable JSON_parse : string → Completion JSValue.
Variable request : GenerateContentRequest.

(** The service answers the request, and the text of its response parses
    to [value]: an API key is set, the request resolves with [text], and
    [JSON.parse] accepts it (a response without text is parsed as the
    string undefined). *)
Definition answers_with (value : JSValue) : Prop :=
  ∃ key text, API_KEY = Some key ∧ key ≠ ""%string ∧
    generateContent key request = Return text ∧
    JSON_parse (default "undefined"%string text) = Return value.

(** No value is obtained: the credentials are missing, the request is
    rejected, or the text of the response does not parse. *)
Inductive no_answer : Prop :=
  | missing_credentials :
      API_KEY = None ∨ API_KEY = Some ""%string → no_answer
  | transport_failure key message :
      API_KEY = Some key → key ≠ ""%string →
      generateContent key request = Throw message → no_answer
  | malformed_JSON key text message :
      API_KEY = Some key → key ≠ ""%string →
      generateContent key request = Return text →
      JSON_parse (default "undefined"%string text) = Throw message → no_answer.

End Response.

(** The parsed response names the move [i], which passes validation on the
    board [b]: it is an object whose [move] is a number, the integer [i] of
    the range 0..8, and cell [i] is empty. *)
Definition valid_answer (b : BoardState) (value : JSValue) (i : nat) : Prop :=
  ∃ properties n, value = JSObject properties ∧
    first_property properties "move" (JSNum n) ∧
    denotes n i ∧ i ≤ 8 ∧ b !! i = Some null.

(** The parsed response is discarded on the board [b]: it is [null], it
    has no [move] (no object, or an object without that field), its [move]
    is no number, is out of range or no integer, or names a cell that is not
    empty. *)
Inductive invalid_answer (b : BoardState) : JSValue → Prop :=
  | answer_null :
      invalid_answer b JSNull
  | answer_no_object value :
      value ≠ JSNull → (∀ properties, value ≠ JSObject properties) →
      invalid_answer b value
  | answer_without_move properties :
      "move"%string ∉ properties.*1 → invalid_answer b (JSObject properties)
  | answer_not_a_number properties v :
      first_property properties "move" v → (∀ n, v ≠ JSNum n) →
      invalid_answer b (JSObject properties)
  | answer_out_of_range properties n :
      first_property properties "move" (JSNum n) → ¬ in_range n →
      invalid_answer b (JSObject properties)
  | answer_not_an_integer properties n :
      first_property properties "move" (JSNum n) → (∀ i, ¬ denotes n i) →
      invalid_answer b (JSObject properties)
  | answer_not_empty properties n i :
      first_property properties "move" (JSNum n) → denotes n i → b !! i ≠ Some null →
      invalid_answer b (JSObject properties).

(** What the claim says of a remote-assisted selector that sends [request]
    for the board [b] and ends with [result]: a valid answer is returned,
    every discarded answer and every failure to obtain one gives the move of
    the heuristic selector on the same board, one of these is always the
    case, and the selector never raises. *)
Definition validates_response_or_falls_back
    (API_KEY : option string)
    (generateContent : string → GenerateContentRequest → Completion (option string))
    (JSON_parse : string → Completion JSValue)
    (request : GenerateContentRequest)
    (b : BoardState) (r : Q) (result : Completion (option nat)) : Prop :=
  (∀ value i,
     answers_with API_KEY generateContent JSON_parse request value →
     valid_answer b value i → result = Return (Some i)) ∧
  (∀ value,
     answers_with API_KEY generateContent JSON_parse request value →
     invalid_answer b value → result = Return (getMediumAIMove b r)) ∧
  (no_answer API_KEY generateContent JSON_parse request →
     result = Return (getMediumAIMove b r)) ∧
  (no_answer API_KEY generateContent JSON_parse request ∨
   ∃ value, answers_with API_KEY generateContent JSON_parse request value ∧
     ((∃ i, valid_answer b value i) ∨ invalid_answer b value)) ∧
  (∃ move, result = Return move).

(** The corpus entries whose move sequence starts with the move history,
    in corpus order. *)
Definition all_matches (corpus : list trainingData.GameSequence) (history : list nat)
    : list trainingData.GameSequence :=
  filter (λ seq, history `prefix_of` trainingData.moves seq) corpus.




(** A click that the game does not allow: on a cell that holds a mark,
    out of the human's turn, or after the game has ended. *)
Definition illegal_click (st : AppState) (index : nat) : Prop :=
  occupied (board st) index = true ∨ isPlayerTurn st = false ∨ outcome st ≠ InProgress.

(** The number of cells that hold a mark. *)
Definition count_marked (b : BoardState) : nat :=
  length (filter (λ cell, cell ≠ null) b).

(** The mark of the move at a position of the move history: the human (X)
    moves first, the AI (O) second. *)
Definition mark_at (position : nat) : Player :=
  if Nat.even position then X else O.

(** The move history tells how the board was filled. *)
Record history_consistent (st : AppState) : Prop := mkConsistent {
  consistent_cells : length (board st) = 9;
  consistent_count : length (moveHistory st) = count_marked (board st);
  consistent_distinct : NoDup (moveHistory st);
  consistent_marks :
    ∀ k i, moveHistory st !! k = Some i → board st !! i = Some (Some (mark_at k));
  consistent_turn : isPlayerTurn st = Nat.even (length (moveHistory st))
}.

(** How one event may change the board: not at all, by a restart, or by a
    mark written on a cell that was empty. *)
Inductive board_change (before after : BoardState) : Prop :=
  | board_kept : after = before → board_change before after
  | board_cleared : after = replicate 9 null → board_change before after
  | board_marked i p :
      before !! i = Some null → after = array_set before i (Some p) →
      board_change before after.

(** An event that meets no suspended [aiMove] when it restarts the game. *)
Definition calm (e : Event) (sys : System) : Prop :=
  match e with
  | ClickRestart | SelectDifficulty _ => tasks sys = []
  | _ => True
  end.

(** While [isAiThinking] is set it is not the human's turn. *)
Definition thinking_out_of_turn (st : AppState) : Prop :=
  isAiThinking st = true → isPlayerTurn st = false.

(** The states of the runs that restart the game only while no [aiMove] is
    suspended. *)
Inductive calmly_reachable (API_KEY : option string)
    (JSON_parse : string → Completion JSValue) : System → Prop :=
  | calm_initial d s g dark :
      calmly_reachable API_KEY JSON_parse (initialSystem d s g dark)
  | calm_step sys e :
      calmly_reachable API_KEY JSON_parse sys → calm e sys →
      calmly_reachable API_KEY JSON_parse (dispatch API_KEY JSON_parse e sys).

(** A suspended [aiMove] holds the board of the state, and the state waits
    for it: at most one is suspended. *)
Definition tasks_current (sys : System) : Prop :=
  ∀ task, task ∈ tasks sys →
    tasks sys = [task] ∧ currentBoard task = board (app sys) ∧
    isPlayerTurn (app sys) = false.

(** Stand-ins for the environment in the runs below: a service that
    cannot be reached, and a parser that accepts nothing. *)
Definition offline_service : Service :=
  λ key request, Throw "TypeError: Failed to fetch".

Definition failing_parser : string → Completion JSValue :=
  λ text, Throw "SyntaxError: Unexpected token".

(** A service that answers every request with the same text, and a parser
    that reads every text as an object whose [move] is [n]. *)
Definition fixed_service (text : string) : Service :=
  λ key request, Return (Some text).

Definition fixed_parser (n : JSNumber) : string → Completion JSValue :=
  λ text, Return (JSObject [("move"%string, JSNum n)]).

(** A first render with the defaults of the store. *)
Definition freshSystem : System := initialSystem Medium (mkScores 0 0 0) 0 false.

(** What the evaluator says of a board: the outcome that
    [checkGameStatus] writes for it into a state that shows none. *)
Definition outcome_of_board (b : BoardState) : GameOutcome :=
  match checkWinner b with
  | Some w => Win (winner w) (line w)
  | None => if board_full b then Draw else InProgress
  end.

(** The scores [s] with the point for a finished game. *)
Definition award (o : GameOutcome) (s : Scores) : Scores :=
  match o with
  | Win X _ => mkScores (player s + 1) (ai s) (draws s)
  | Win O _ => mkScores (player s) (ai s + 1) (draws s)
  | Draw => mkScores (player s) (ai s) (draws s + 1)
  | InProgress => s
  end.

(** The events that call [restartGame]. *)
Definition restarts (e : Event) : Prop :=
  match e with
  | ClickRestart | SelectDifficulty _ => True
  | _ => False
  end.

(** The shape of the data in a state of the application: nine cells on the
    board, cell indices in the history, and for every suspended [aiMove] a
    board of nine cells with an empty one. *)
Definition nine_cells (sys : System) : Prop :=
  length (board (app sys)) = 9 ∧
  (∀ i, i ∈ moveHistory (app sys) → i < 9) ∧
  ∀ task, task ∈ tasks sys →
    length (currentBoard task) = 9 ∧ ∃ j, currentBoard task !! j = Some null.

(** The state shows the outcome of its board, and a suspended [aiMove]
    waits in a game in progress with the values of the state in its
    closure. *)
Definition settled (sys : System) : Prop :=
  outcome (app sys) = outcome_of_board (board (app sys)) ∧
  ∀ task, task ∈ tasks sys →
    outcome (app sys) = InProgress ∧
    taskScores task = scores (app sys) ∧
    taskDifficulty task = difficulty (app sys) ∧
    currentMoveHistory task = moveHistory (app sys).

(** The symbol of a cell in the board string. *)
Definition cell_char (cell : option Cell) : ascii :=
  match cell with
  | Some (Some X) => "X"
  | Some (Some O) => "O"
  | _ => " "
  end.

(** Where the board string shows cell [i]: rows are 20 characters apart,
    cells of a row 4. *)
Definition cell_position (i : nat) : nat := 20 * (i / 3) + 4 * (i mod 3).

(** The scores after an event follow the outcome: the point of the game
    when the event ends a game in progress, no change otherwise. *)
Definition scores_follow (st st' : AppState) : Prop :=
  (outcome st = InProgress → outcome st' ≠ InProgress →
   scores st' = award (outcome st') (scores st)) ∧
  (outcome st ≠ InProgress ∨ outcome st' = InProgress → scores st' = scores st).

(** An event left the game as it was, and no [aiMove] is suspended. *)
Definition game_frozen (sys sys' : System) : Prop :=
  board (app sys') = board (app sys) ∧
  moveHistory (app sys') = moveHistory (app sys) ∧
  outcome (app sys') = outcome (app sys) ∧
  scores (app sys') = scores (app sys) ∧
  isPlayerTurn (app sys') = isPlayerTurn (app sys) ∧
  tasks sys' = [].

(** A game on the Easy tier that the human wins with the top row, the AI
    having played cells 8 and 7. *)
Definition wonGame : System :=
  dispatch None failing_parser (Click 2)
    (dispatch None failing_parser (AiResumes 0 (5 # 6) offline_service)
       (dispatch None failing_parser (Click 1)
          (dispatch None failing_parser (AiResumes 0 (7 # 8) offline_service)
             (dispatch None failing_parser (Click 0)
                (initialSystem Easy (mkScores 0 0 0) 0 false))))).

(** * Theorems *)

(** ** The evaluator *)

Lemma line_winner_Some board combination p :
  line_winner board combination = Some p ↔ completed board combination p.
Proof.
  destruct combination as [[a b] c]; unfold line_winner, completed.
  destruct (board !! a) as [[q|]|] eqn:Ha.
  - repeat case_bool_decide; simpl; split.
    all: try (intros [= ->]; split_and!; congruence).
    all: try (intros ([= ->] & Hb & Hc); congruence).
  - split; [done | by intros [? _]].
  - split; [done | by intros [? _]].
Qed.

Lemma line_winner_None board combination :
  line_winner board combination = None ↔ ∀ M, ¬ completed board combination M.
Proof.
  split.
  - intros Hnone M HM. apply line_winner_Some in HM. congruence.
  - intros Hno. destruct (line_winner board combination) as [p|] eqn:E; [|done].
    apply line_winner_Some in E. by destruct (Hno p).
Qed.

Lemma first_winner_None board combinations :
  first_winner board combinations = None ↔
  ∀ combination M, combination ∈ combinations → ¬ completed board combination M.
Proof.
  induction combinations as [|l ls IH]; simpl.
  - split; [|done]. intros _ ? ? Hin. by apply elem_of_nil in Hin.
  - destruct (line_winner board l) as [p|] eqn:E.
    + split; [done|]. intros Hno. apply line_winner_Some in E.
      destruct (Hno l p); [left | done].
    + rewrite IH. split.
      * intros Hno l' M [->|Hin]%elem_of_cons; [|by apply Hno].
        by apply line_winner_None.
      * intros Hno l' M Hin. apply Hno. by right.
Qed.

Lemma first_winner_Some board combinations w :
  first_winner board combinations = Some w ↔
  completed board (line w) (winner w) ∧
  ∃ earlier later, combinations = earlier ++ line w :: later ∧
    ∀ combination M, combination ∈ earlier → ¬ completed board combination M.
Proof.
  revert w. induction combinations as [|l ls IH]; intros w; simpl.
  - split; [done|]. intros (_ & earlier & later & Heq & _). by destruct earlier.
  - destruct (line_winner board l) as [p|] eqn:E.
    + split.
      * intros [= <-]. simpl. split; [by apply line_winner_Some|].
        exists [], ls. split; [done|]. intros ? ? Hin. by apply elem_of_nil in Hin.
      * intros (Hw & earlier & later & Heq & Hno).
        destruct earlier as [|l' earlier]; simpl in Heq.
        -- injection Heq as -> ->. apply line_winner_Some in Hw.
           rewrite Hw in E. injection E as <-. by destruct w.
        -- injection Heq as -> ->. apply line_winner_Some in E.
           destruct (Hno l' p); [left | done].
    + rewrite IH. split.
      * intros (Hw & earlier & later & -> & Hno). split; [done|].
        exists (l :: earlier), later. split; [done|].
        intros l' M [->|Hin]%elem_of_cons; [by apply line_winner_None | by apply Hno].
      * intros (Hw & earlier & later & Heq & Hno). split; [done|].
        destruct earlier as [|l' earlier]; simpl in Heq.
        -- injection Heq as -> ->. apply line_winner_Some in Hw. congruence.
        -- injection Heq as -> ->. exists earlier, later. split; [done|].
           intros l'' M Hin. apply Hno. by right.
Qed.

Lemma checkWinner_first_completed board w :
  checkWinner board = Some w ↔ first_completed board w.
Proof. apply first_winner_Some. Qed.

Lemma checkWinner_None board :
  checkWinner board = None ↔ no_completed_line board.
Proof. apply first_winner_None. Qed.

Lemma every_from_true {A} (f : A → nat → bool) arr k :
  every_from f arr k = true ↔ ∀ i x, arr !! i = Some x → f x (k + i) = true.
Proof.
  revert k. induction arr as [|y arr IH]; intros k; simpl.
  - split; [|done]. intros _ i x Hi. by rewrite lookup_nil in Hi.
  - rewrite andb_true_iff, IH. split.
    + intros [Hy Hrest] [|i] x; simpl.
      * intros [= <-]. by rewrite Nat.add_0_r.
      * intros Hi. replace (k + S i) with (S k + i) by lia. by apply Hrest.
    + intros Hall. split.
      * specialize (Hall 0 y eq_refl). by rewrite Nat.add_0_r in Hall.
      * intros i x Hi. replace (S k + i) with (k + S i) by lia. by apply Hall.
Qed.

Lemma every_true {A} (f : A → nat → bool) arr :
  every f arr = true ↔ ∀ i x, arr !! i = Some x → f x i = true.
Proof. apply every_from_true. Qed.

Lemma board_full_true b : board_full b = true ↔ all_marked b.
Proof.
  unfold board_full, all_marked. rewrite every_true.
  split; intros H i cell Hi; specialize (H i cell Hi).
  - by apply bool_decide_eq_true in H.
  - by apply bool_decide_eq_true.
Qed.

Lemma all_marked_occupied b :
  well_formed b → all_marked b ↔ ∀ i, i < 9 → occupied b i = true.
Proof.
  unfold well_formed, all_marked, occupied. intros Hlen. split.
  - intros Hall i Hi.
    destruct (lookup_lt_is_Some_2 b i) as [cell Hcell]; [lia|].
    rewrite Hcell. destruct cell; [done|]. by destruct (Hall i None).
  - intros Hocc i cell Hcell ->.
    assert (i < 9) as Hi by (rewrite <- Hlen; by eapply lookup_lt_Some).
    specialize (Hocc i Hi). by rewrite Hcell in Hocc.
Qed.

Lemma not_all_marked_empty b :
  well_formed b → ¬ all_marked b ↔ ∃ i, i < 9 ∧ b !! i = Some null.
Proof.
  intros Hlen. split.
  - intros Hnot. rewrite <- board_full_true in Hnot.
    apply not_true_is_false in Hnot.
    destruct (decide (Exists (λ cell, cell = null) b)) as [Hex|Hno].
    + apply Exists_exists in Hex as (cell & Hin & ->).
      apply list_elem_of_lookup in Hin as [i Hi]. exists i. split; [|done].
      unfold well_formed in Hlen. rewrite <- Hlen. by eapply lookup_lt_Some.
    + assert (board_full b = true) as Hfull; [|congruence].
      apply board_full_true. intros i cell Hi ->. apply Hno.
      apply Exists_exists. exists None. split; [|done]. by eapply list_elem_of_lookup_2.
  - intros (i & _ & Hi) Hall. by apply (Hall i None).
Qed.

Lemma completed_unique_mark b combination M M' :
  completed b combination M → completed b combination M' → M = M'.
Proof. destruct combination as [[a c] d]. intros (Ha & _) (Ha' & _). congruence. Qed.

Lemma first_completed_in b w :
  first_completed b w → line w ∈ WINNING_COMBINATIONS.
Proof.
  intros (_ & earlier & later & -> & _). apply elem_of_app. right. left.
Qed.

(** C4, as the claim states it, fails on a board with two completed lines:
    X holds the top row and the left column (a position of a real game, in
    which X's fifth move lands on cell 0), and the evaluator reports the
    row, the column never. *)
Lemma evaluator_reports_one_line_only :
  let b := [Some X; Some X; Some X; Some X; Some O; Some O; Some X; Some O; Some O] in
  (0, 3, 6) ∈ WINNING_COMBINATIONS ∧ completed b (0, 3, 6) X ∧
  checkWinner b = Some (mkWinnerInfo X (0, 1, 2)) ∧
  checkWinner b ≠ Some (mkWinnerInfo X (0, 3, 6)) ∧
  ∀ s st, outcome (checkGameStatus b s st) = Win X (0, 1, 2) ∧
          outcome (checkGameStatus b s st) ≠ Win X (0, 3, 6).
Proof.
  cbv zeta. split_and!.
  - unfold WINNING_COMBINATIONS. repeat constructor.
  - by repeat split.
  - reflexivity.
  - discriminate.
  - intros s st. split; [reflexivity | discriminate].
Qed.

(** C4, amended: on a board that contains a completed winning line, both
    evaluators report a win, for the first completed line in the order of
    [WINNING_COMBINATIONS] and the mark that holds it; the outcome is
    therefore never a draw, full board or not.  The reported line is the
    given one when the given one is the only completed line. *)
Theorem evaluator_reports_first_completed_line (b : BoardState) (M : Player) (l : Line)
    (s : Scores) (st : AppState) :
  l ∈ WINNING_COMBINATIONS →
  completed b l M →
  ∃ w, first_completed b w ∧
       checkWinner b = Some w ∧
       outcome (checkGameStatus b s st) = Win (winner w) (line w) ∧
       outcome (checkGameStatus b s st) ≠ Draw ∧
       ((∀ l' M', l' ∈ WINNING_COMBINATIONS → completed b l' M' → l' = l) →
        w = mkWinnerInfo M l).
Proof.
  intros Hin Hl.
  destruct (checkWinner b) as [w|] eqn:Hw.
  - exists w. pose proof (proj1 (checkWinner_first_completed b w) Hw) as Hfirst.
    assert (outcome (checkGameStatus b s st) = Win (winner w) (line w)) as Hout.
    { unfold checkGameStatus, outcome. rewrite Hw. reflexivity. }
    split_and!; [done | done | done | by rewrite Hout |].
    intros Honly. destruct Hfirst as [Hcompl Hrest].
    assert (line w = l) as Hline.
    { apply (Honly (line w) (winner w)); [|exact Hcompl]. by apply (first_completed_in b). }
    destruct w as [M' l']; simpl in *. subst l'.
    f_equal. by apply (completed_unique_mark b l).
  - apply checkWinner_None in Hw. by destruct (Hw l M).
Qed.

Lemma evaluator_reports_first_completed_line_witness :
  ∃ w, first_completed [Some X; Some O; Some X; Some O; Some X; Some O; null; null; Some X] w ∧
       checkWinner [Some X; Some O; Some X; Some O; Some X; Some O; null; null; Some X] = Some w ∧
       outcome (checkGameStatus [Some X; Some O; Some X; Some O; Some X; Some O; null; null; Some X]
                  (mkScores 0 0 0) (initialState Medium (mkScores 0 0 0) 0 false))
         = Win (winner w) (line w) ∧
       outcome (checkGameStatus [Some X; Some O; Some X; Some O; Some X; Some O; null; null; Some X]
                  (mkScores 0 0 0) (initialState Medium (mkScores 0 0 0) 0 false)) ≠ Draw ∧
       ((∀ l' M', l' ∈ WINNING_COMBINATIONS →
           completed [Some X; Some O; Some X; Some O; Some X; Some O; null; null; Some X] l' M' →
           l' = (0, 4, 8)) →
        w = mkWinnerInfo X (0, 4, 8)).
Proof.
  apply (evaluator_reports_first_completed_line
           [Some X; Some O; Some X; Some O; Some X; Some O; null; null; Some X] X (0, 4, 8)).
  - unfold WINNING_COMBINATIONS. repeat constructor.
  - by repeat split.
Defined.

(** C5: on a board of nine cells with no completed winning line, evaluated
    in a state that shows no outcome yet, the evaluator reports a draw when
    every cell holds a mark, and otherwise reports nothing (the game stays
    in progress and the state is as it was); [checkWinner] reports no
    winner; the board of the state is not written. *)
Theorem evaluator_draw_iff_full (b : BoardState) (s : Scores) (st : AppState) :
  well_formed b →
  no_completed_line b →
  winnerInfo st = None →
  isDraw st = false →
  checkWinner b = None ∧
  (outcome (checkGameStatus b s st) = Draw ↔ ∀ i, i < 9 → occupied b i = true) ∧
  (outcome (checkGameStatus b s st) = InProgress ↔ ∃ i, i < 9 ∧ b !! i = Some null) ∧
  ((∃ i, i < 9 ∧ b !! i = Some null) → checkGameStatus b s st = st) ∧
  board (checkGameStatus b s st) = board st.
Proof.
  intros Hwf Hno Hwin Hdraw.
  apply checkWinner_None in Hno as Hnone.
  unfold checkGameStatus, outcome. rewrite Hnone.
  rewrite <- (all_marked_occupied b Hwf), <- (not_all_marked_empty b Hwf),
    <- board_full_true.
  destruct (board_full b) eqn:Hfull; simpl; rewrite ?Hwin, ?Hdraw.
  - split_and!; [done | done | | | done].
    + split; [done | intros Hnot; by destruct Hnot].
    + intros Hnot. by destruct Hnot.
  - split_and!; [done | | | done | done].
    + split; done.
    + split; [by intros _ | done].
Qed.

Lemma evaluator_draw_iff_full_witness :
  checkWinner [Some X; Some O; Some X; Some X; Some O; Some O; Some O; Some X; Some X] = None ∧
  outcome (checkGameStatus [Some X; Some O; Some X; Some X; Some O; Some O; Some O; Some X; Some X]
             (mkScores 0 0 0) (initialState Medium (mkScores 0 0 0) 0 false)) = Draw.
Proof.
  pose proof (evaluator_draw_iff_full
    [Some X; Some O; Some X; Some X; Some O; Some O; Some O; Some X; Some X]
    (mkScores 0 0 0) (initialState Medium (mkScores 0 0 0) 0 false)) as H.
  destruct H as (Hnone & Hdraw & _).
  - reflexivity.
  - apply checkWinner_None. reflexivity.
  - reflexivity.
  - reflexivity.
  - split; [exact Hnone|]. apply Hdraw. intros i Hi.
    do 9 (destruct i as [|i]; [reflexivity|]). lia.
Defined.

(** ** The heuristic selector *)

Lemma findWinningMove_step b p i rest :
  (wins_by_playing b p i ∧ findWinningMove_loop b p (i :: rest) = Some i) ∨
  (¬ wins_by_playing b p i ∧
   findWinningMove_loop b p (i :: rest) = findWinningMove_loop b p rest).
Proof.
  unfold wins_by_playing. simpl. case_bool_decide as Hnull.
  - destruct (checkWinner (array_set b i (Some p))) as [w|] eqn:Hw.
    + case_bool_decide as Hp.
      * left. split; [|done]. split; [done|]. by exists w.
      * right. split; [|done]. intros (_ & w' & [= <-] & Hp'). done.
    + right. split; [|done]. intros (_ & w' & Hw' & _). done.
  - right. split; [|done]. by intros [Hnull' _].
Qed.

Lemma findWinningMove_loop_seq b p k n :
  match findWinningMove_loop b p (seq k n) with
  | Some i => k ≤ i < k + n ∧ wins_by_playing b p i ∧
              ∀ j, k ≤ j < i → ¬ wins_by_playing b p j
  | None => ∀ j, k ≤ j < k + n → ¬ wins_by_playing b p j
  end.
Proof.
  revert k. induction n as [|n IH]; intros k.
  - simpl. intros j Hj. lia.
  - change (seq k (S n)) with (k :: seq (S k) n).
    destruct (findWinningMove_step b p k (seq (S k) n)) as [[Hwin ->]|[Hnot ->]].
    + split_and!; [lia | lia | done | intros j Hj; lia].
    + specialize (IH (S k)).
      destruct (findWinningMove_loop b p (seq (S k) n)) as [i|].
      * destruct IH as (Hi & Hwin & Hfirst). split_and!; [lia | lia | done |].
        intros j Hj. destruct (decide (j = k)) as [->|Hne]; [done|].
        apply Hfirst. lia.
      * intros j Hj. destruct (decide (j = k)) as [->|Hne]; [done|].
        apply IH. lia.
Qed.

Lemma findWinningMove_Some b p i :
  findWinningMove b p = Some i ↔ first_winning_cell b p i.
Proof.
  unfold findWinningMove, first_winning_cell.
  pose proof (findWinningMove_loop_seq b p 0 9) as H.
  destruct (findWinningMove_loop b p (seq 0 9)) as [i'|].
  - destruct H as (Hi & Hwin & Hfirst). split.
    + intros [= <-]. split_and!; [lia | done |]. intros j Hj. apply Hfirst. lia.
    + intros (Hlt & Hwin' & Hfirst'). f_equal.
      destruct (Nat.lt_trichotomy i' i) as [Hlt'|[->|Hgt]]; [|done|].
      * by destruct (Hfirst' i').
      * destruct (Hfirst i); [lia | done].
  - split; [done|]. intros (Hlt & Hwin & _). destruct (H i); [lia | done].
Qed.

Lemma findWinningMove_None b p :
  findWinningMove b p = None ↔ ∀ j, j < 9 → ¬ wins_by_playing b p j.
Proof.
  unfold findWinningMove.
  pose proof (findWinningMove_loop_seq b p 0 9) as H.
  destruct (findWinningMove_loop b p (seq 0 9)) as [i|].
  - destruct H as (Hi & Hwin & _). split; [done|].
    intros Hno. destruct (Hno i); [lia | done].
  - split; [|done]. intros _ j Hj. apply H. lia.
Qed.

Lemma random_index_range r n :
  unit_interval r → 0 < n → (0 ≤ random_index r n < Z.of_nat n)%Z.
Proof.
  intros [H0 H1] Hn. unfold random_index.
  assert (0 < inject_Z (Z.of_nat n))%Q as Hpos.
  { change 0%Q with (inject_Z 0). rewrite <- Zlt_Qlt. lia. }
  split.
  - rewrite <- (Qfloor_Z 0). apply Qfloor_resp_le.
    apply Qmult_le_0_compat; [done | by apply Qlt_le_weak].
  - rewrite Zlt_Qlt. eapply Qle_lt_trans; [apply Qfloor_le|].
    rewrite <- (Qmult_1_l (inject_Z (Z.of_nat n))) at 2.
    by apply Qmult_lt_compat_r.
Qed.

Lemma random_pick {A} (arr : list A) r :
  unit_interval r → 0 < length arr →
  ∃ x, array_get_Z arr (random_index r (length arr)) = Some x ∧ x ∈ arr.
Proof.
  intros Hr Hlen. pose proof (random_index_range r (length arr) Hr Hlen) as [Hlo Hhi].
  unfold array_get_Z. destruct (Z.ltb_spec (random_index r (length arr)) 0); [lia|].
  destruct (lookup_lt_is_Some_2 arr (Z.to_nat (random_index r (length arr)))) as [x Hx]; [lia|].
  exists x. split; [done|]. by eapply list_elem_of_lookup_2.
Qed.

Lemma elem_of_available_among b indices i :
  i ∈ available_among b indices ↔ b !! i = Some null ∧ i ∈ indices.
Proof. unfold available_among. by rewrite list_elem_of_filter. Qed.

Lemma elem_of_availableCells b i :
  i ∈ availableCells b ↔ b !! i = Some null.
Proof.
  unfold availableCells. rewrite list_elem_of_omap. split.
  - intros (o & Hin & Ho). apply elem_of_lookup_imap in Hin as (j & cell & -> & Hj).
    case_bool_decide; simplify_eq/=. done.
  - intros Hi. exists (Some i). split; [|done].
    apply elem_of_lookup_imap. exists i, None. split; [|done].
    by rewrite bool_decide_eq_true_2.
Qed.

(** What the selector returns is an empty cell of the board, whatever the
    board and the random number. *)
Lemma getMediumAIMove_empty b r i :
  getMediumAIMove b r = Some i → b !! i = Some null.
Proof.
  unfold getMediumAIMove.
  destruct (findWinningMove b O) as [w|] eqn:HO.
  { intros [= <-]. apply findWinningMove_Some in HO as (_ & [H _] & _). done. }
  destruct (findWinningMove b X) as [w|] eqn:HX.
  { intros [= <-]. apply findWinningMove_Some in HX as (_ & [H _] & _). done. }
  case_bool_decide as Hcenter; [by intros [= <-]|].
  cbv zeta.
  assert (∀ (indices : list nat) k, array_get_Z (available_among b indices) k = Some i →
            b !! i = Some null) as Hpick.
  { intros indices k. unfold array_get_Z. destruct (k <? 0)%Z; [done|].
    intros Hk%list_elem_of_lookup_2. by apply elem_of_available_among in Hk as [? _]. }
  destruct (0 <? length (available_among b [0; 2; 6; 8])); [by apply Hpick|].
  destruct (0 <? length (available_among b [1; 3; 5; 7])); [by apply Hpick|].
  intros Hk%list_elem_of_lookup_2. by apply elem_of_availableCells.
Qed.

(** C2: on a board of nine cells with an empty cell, the heuristic selector
    returns an index between 0 and 8 whose cell is empty, whatever
    [Math.random] returns: no step of the chain falls through. *)
Theorem heuristic_returns_empty_cell (b : BoardState) (r : Q) :
  well_formed b →
  (∃ j, b !! j = Some null) →
  unit_interval r →
  ∃ i, getMediumAIMove b r = Some i ∧ i ≤ 8 ∧ b !! i = Some null.
Proof.
  intros Hwf [j Hj] Hr.
  assert (∃ i, getMediumAIMove b r = Some i) as [i Hi].
  { unfold getMediumAIMove.
    destruct (findWinningMove b O) as [w|]; [by eexists|].
    destruct (findWinningMove b X) as [w|]; [by eexists|].
    case_bool_decide; [by eexists|]. cbv zeta.
    destruct (Nat.ltb_spec 0 (length (available_among b [0; 2; 6; 8]))) as [Hc|_].
    { destruct (random_pick _ r Hr Hc) as (x & -> & _). by eexists. }
    destruct (Nat.ltb_spec 0 (length (available_among b [1; 3; 5; 7]))) as [Hs|_].
    { destruct (random_pick _ r Hr Hs) as (x & -> & _). by eexists. }
    apply elem_of_availableCells in Hj.
    destruct (availableCells b) as [|x cells]; [by apply elem_of_nil in Hj|].
    by exists x. }
  exists i. pose proof (getMediumAIMove_empty b r i Hi) as Hempty.
  split_and!; [done | | done].
  apply lookup_lt_Some in Hempty. unfold well_formed in Hwf. lia.
Qed.

Lemma heuristic_returns_empty_cell_witness :
  ∃ i, getMediumAIMove [Some X; null; null; null; Some O; null; null; null; Some X] (3 # 4) = Some i
       ∧ i ≤ 8
       ∧ [Some X; null; null; null; Some O; null; null; null; Some X] !! i = Some null.
Proof.
  apply (heuristic_returns_empty_cell
           [Some X; null; null; null; Some O; null; null; null; Some X] (3 # 4)).
  - reflexivity.
  - by exists 1.
  - split; [discriminate | reflexivity].
Defined.

Lemma lookup_array_set b i v j :
  i < length b →
  array_set b i v !! j = if decide (j = i) then Some v else b !! j.
Proof.
  intros Hi. unfold array_set. destruct (decide (j = i)) as [->|Hne].
  - by apply list_lookup_insert_eq.
  - apply list_lookup_insert_ne. congruence.
Qed.

Lemma completed_before_move b i p combination q :
  b !! i = Some null → q ≠ p →
  completed (array_set b i (Some p)) combination q → completed b combination q.
Proof.
  intros Hnull Hne. apply lookup_lt_Some in Hnull as Hi.
  destruct combination as [[a c] d]. unfold completed.
  rewrite !(lookup_array_set b i _ _ Hi).
  repeat case_decide; intros (Ha & Hc & Hd); split_and!; congruence.
Qed.

(** On a board with no completed line, the evaluator reports a win for [p]
    after [p] plays on [i] exactly when the move completes a line of [p]. *)
Lemma wins_by_playing_completes_line b p i :
  no_completed_line b → wins_by_playing b p i ↔ completes_line b p i.
Proof.
  intros Hno. unfold wins_by_playing, completes_line. split.
  - intros (Hnull & w & Hw & <-). split; [done|].
    apply checkWinner_first_completed in Hw.
    exists (line w). split; [by eapply first_completed_in | by destruct Hw].
  - intros (Hnull & l & Hin & Hl). split; [done|].
    destruct (checkWinner (array_set b i (Some p))) as [w|] eqn:Hw.
    + exists w. split; [done|].
      apply checkWinner_first_completed in Hw.
      destruct (decide (winner w = p)) as [|Hne]; [done|].
      destruct (Hno (line w) (winner w)); [by eapply first_completed_in|].
      eapply completed_before_move; [done | done | by destruct Hw].
    + apply checkWinner_None in Hw. by destruct (Hw l p).
Qed.

(** C3: the priority chain of the heuristic selector, on every board (a
    step that applies presupposes an empty cell).  (1) If O wins by playing
    on some empty cell, the selector returns the first such cell of the scan
    0..8.  (2) Otherwise, if X wins by playing on some empty cell, it
    returns the first such cell of the same scan.  (3) Otherwise, if cell 4
    is empty, it returns 4.  To win by playing is to make the evaluator
    report a win for the mark; (4) on a board with no completed line that is
    to complete a winning combination with the mark. *)
Theorem heuristic_priority_chain (b : BoardState) (r : Q) :
  (∀ i, first_winning_cell b O i → getMediumAIMove b r = Some i) ∧
  ((∀ j, j < 9 → ¬ wins_by_playing b O j) →
   ∀ i, first_winning_cell b X i → getMediumAIMove b r = Some i) ∧
  ((∀ j, j < 9 → ¬ wins_by_playing b O j) →
   (∀ j, j < 9 → ¬ wins_by_playing b X j) →
   b !! 4 = Some null → getMediumAIMove b r = Some 4) ∧
  (no_completed_line b → ∀ p i, wins_by_playing b p i ↔ completes_line b p i).
Proof.
  unfold getMediumAIMove. split_and!.
  - intros i Hi%findWinningMove_Some. by rewrite Hi.
  - intros HO%findWinningMove_None i Hi%findWinningMove_Some. by rewrite HO, Hi.
  - intros HO%findWinningMove_None HX%findWinningMove_None Hcenter.
    rewrite HO, HX. by rewrite bool_decide_eq_true_2.
  - intros Hno p i. by apply wins_by_playing_completes_line.
Qed.

(** The two examples of the spec (section 8), through the theorem: O takes
    its win on cell 2, and X's threat on cell 2 is blocked. *)
Lemma heuristic_priority_chain_witness :
  getMediumAIMove [Some O; Some O; null; Some X; Some X; null; null; null; null] 0 = Some 2 ∧
  getMediumAIMove [Some X; Some X; null; Some O; null; null; null; null; null] 0 = Some 2.
Proof.
  split.
  - destruct (heuristic_priority_chain
                [Some O; Some O; null; Some X; Some X; null; null; null; null] 0)
      as (Hwin & _).
    apply Hwin. apply findWinningMove_Some. reflexivity.
  - destruct (heuristic_priority_chain
                [Some X; Some X; null; Some O; null; null; null; null; null] 0)
      as (_ & Hblock & _).
    apply Hblock.
    + apply findWinningMove_None. reflexivity.
    + apply findWinningMove_Some. reflexivity.
Defined.

(** ** The remote-assisted selectors *)

(** A reduced fraction that equals an integer has denominator one. *)
Lemma Qred_integer q z :
  q == inject_Z z → Qred q = inject_Z z.
Proof.
  intros Heq. pose proof (gcd_Qred q) as Hgcd.
  rewrite <- (Qred_correct q) in Heq.
  destruct (Qred q) as [num den]. unfold Qeq in Heq. simpl in Heq, Hgcd.
  assert (Z.pos den = 1)%Z as Hden.
  { assert (Z.pos den | 1)%Z as Hdiv.
    { rewrite <- Hgcd. apply Z.gcd_greatest; [|reflexivity].
      exists z. lia. }
    apply Z.divide_1_r_nonneg in Hdiv; lia. }
  injection Hden as ->. unfold inject_Z. f_equal. lia.
Qed.

Lemma index_of_number_Some n i :
  index_of_number n = Some i ↔ denotes n i.
Proof.
  destruct n as [q| | |]; cbn [index_of_number denotes];
    try (split; [done | by intros []]).
  split.
  - destruct (Qred q) as [num den] eqn:Hred. cbn [Qnum Qden].
    destruct (Pos.eqb_spec den 1) as [->|]; [|done].
    destruct (Z.leb_spec 0 num); [|done]. cbn [andb]. intros [= <-].
    rewrite Z2Nat.id by done. rewrite <- (Qred_correct q), Hred. reflexivity.
  - intros Heq. apply Qred_integer in Heq.
    rewrite Heq. cbn [inject_Z Qnum Qden Pos.eqb andb].
    destruct (Z.leb_spec 0 (Z.of_nat i)); [|lia].
    by rewrite Nat2Z.id.
Qed.

Lemma denotes_unique n i j : denotes n i → denotes n j → i = j.
Proof.
  intros Hi%index_of_number_Some Hj%index_of_number_Some. congruence.
Qed.

Lemma in_range_true n :
  number_ge_0 n && number_le_8 n = true ↔ in_range n.
Proof.
  destruct n as [q| | |]; simpl; try (split; [done | by intros []]).
  by rewrite andb_true_iff, !Qle_bool_iff.
Qed.

Lemma denotes_in_range n i : denotes n i → in_range n ↔ i ≤ 8.
Proof.
  destruct n as [q| | |]; simpl; try done. intros ->.
  change 0%Q with (inject_Z 0). rewrite <- !Zle_Qle. lia.
Qed.

Lemma move_is_valid_true b move :
  move_is_valid b move = true ↔ ∃ i, validated b (Return move) i.
Proof.
  unfold validated. split.
  - destruct move as [[| |n| | |]|]; try done. simpl.
    rewrite andb_true_iff, in_range_true, bool_decide_eq_true.
    unfold array_get_number. intros [Hrange Hcell].
    destruct (index_of_number n) as [i|] eqn:Hi; [|done].
    apply index_of_number_Some in Hi.
    exists i, n. split_and!; [done | done | by apply (denotes_in_range n) | done].
  - intros (i & n & [= ->] & Hi & Hle & Hcell). simpl.
    rewrite andb_true_iff, in_range_true, bool_decide_eq_true.
    unfold array_get_number.
    rewrite (proj2 (index_of_number_Some n i) Hi).
    split; [by apply (denotes_in_range n i) | done].
Qed.

Lemma discarded_not_valid b move :
  discarded b (Return move) → move_is_valid b move = false.
Proof.
  intros Hd. apply not_true_is_false. rewrite move_is_valid_true.
  intros (i & n & [= ->] & Hi & Hle & Hcell).
  inversion Hd as [| |v Hv|n' Hr|n' Hint|n' j Hj Hocc]; subst.
  - by destruct (Hv n).
  - apply Hr. by apply (denotes_in_range n i).
  - by destruct (Hint i).
  - by rewrite (denotes_unique n j i Hj Hi) in Hocc.
Qed.

Lemma valid_or_discarded b suggestion :
  (∃ i, validated b suggestion i) ∨ discarded b suggestion.
Proof.
  destruct suggestion as [move|message]; [|right; constructor].
  destruct (move_is_valid b move) eqn:Hvalid.
  { left. by apply move_is_valid_true. }
  right. destruct move as [v|]; [|constructor].
  destruct v as [| |n| | |]; try (apply discard_not_a_number; discriminate).
  destruct (index_of_number n) as [i|] eqn:Hi.
  - apply index_of_number_Some in Hi.
    destruct (decide (b !! i = Some null)) as [Hcell|Hcell].
    + apply discard_out_of_range. intros Hrange.
      apply not_true_iff_false in Hvalid. apply Hvalid, move_is_valid_true.
      exists i, n. split_and!; [done | done | by apply (denotes_in_range n) | done].
    + by apply (discard_not_empty b n i).
  - apply discard_not_an_integer. intros i Hi'%index_of_number_Some. congruence.
Qed.

(** The shared shape of the two selectors: the suggestion is validated
    inside [try], and both the [else] and the [catch] fall back. *)
Lemma try_validate_or_fall_back b r suggestion :
  validates_or_falls_back b r suggestion
    (try_catch (move ← suggestion; validated_or_medium b r move)
       (λ error, Return (getMediumAIMove b r))).
Proof.
  unfold validates_or_falls_back. split_and!.
  - intros i Hi. pose proof Hi as (n & -> & Hn & _). simpl.
    unfold validated_or_medium.
    rewrite (proj2 (move_is_valid_true b _) (ex_intro _ i Hi)). simpl.
    by rewrite (proj2 (index_of_number_Some n i) Hn).
  - intros Hd. destruct suggestion as [move|message]; [|done]. simpl.
    unfold validated_or_medium. by rewrite (discarded_not_valid b move Hd).
  - apply valid_or_discarded.
  - destruct suggestion as [move|message]; simpl; [|by eexists].
    unfold validated_or_medium. destruct (move_is_valid b move); by eexists.
Qed.

(** [obj.move] is the first property of that name. *)
Lemma get_property_first key properties value :
  get_property key properties = Some value ↔ first_property properties key value.
Proof.
  unfold first_property. induction properties as [|[k v] rest IH]; simpl.
  - split; [done|]. intros (before & after & Heq & _). by destruct before.
  - case_bool_decide as Hk.
    + subst k. split.
      * intros [= ->]. exists [], rest. split; [done|]. apply not_elem_of_nil.
      * intros (before & after & Heq & Hnot).
        destruct before as [|[k' v'] before]; simpl in *.
        -- by injection Heq as ->.
        -- injection Heq as -> -> _. destruct Hnot. apply list_elem_of_here.
    + rewrite IH. split.
      * intros (before & after & -> & Hnot). exists ((k, v) :: before), after.
        split; [done|]. simpl. rewrite not_elem_of_cons. done.
      * intros (before & after & Heq & Hnot).
        destruct before as [|[k' v'] before]; simpl in *.
        -- injection Heq as -> _ _. done.
        -- injection Heq as -> -> ->. exists before, after.
           split; [done|]. by apply not_elem_of_cons in Hnot as [_ ?].
Qed.

Lemma get_property_absent key properties :
  get_property key properties = None ↔ key ∉ properties.*1.
Proof.
  induction properties as [|[k v] rest IH]; simpl.
  - split; [intros _; apply not_elem_of_nil | done].
  - rewrite not_elem_of_cons. case_bool_decide as Hk.
    + split; [done | intros [Hne _]; by destruct Hne].
    + rewrite IH. split; [by intros ? | by intros [_ ?]].
Qed.

(** A valid answer is a validated suggestion, and an invalid answer a
    discarded one. *)
Lemma valid_answer_validated b value i :
  valid_answer b value i → validated b (member_move value) i.
Proof.
  intros (properties & n & -> & Hmove%get_property_first & Hn & Hle & Hcell).
  exists n. simpl. by rewrite Hmove.
Qed.

Lemma invalid_answer_discarded b value :
  invalid_answer b value → discarded b (member_move value).
Proof.
  intros [|other Hnull Hobject|properties Habsent%get_property_absent
          |properties v Hmove%get_property_first Hv
          |properties n Hmove%get_property_first Hn
          |properties n Hmove%get_property_first Hn
          |properties n i Hmove%get_property_first Hn Hcell]; simpl.
  - constructor.
  - destruct other as [|flag|n|s|elements|properties]; simpl.
    + done.
    + apply discard_absent.
    + apply discard_absent.
    + apply discard_absent.
    + apply discard_absent.
    + by destruct (Hobject properties).
  - rewrite Habsent. constructor.
  - rewrite Hmove. by apply discard_not_a_number.
  - rewrite Hmove. by apply discard_out_of_range.
  - rewrite Hmove. by apply discard_not_an_integer.
  - rewrite Hmove. by apply (discard_not_empty b n i).
Qed.

Lemma valid_or_invalid_answer b value :
  (∃ i, valid_answer b value i) ∨ invalid_answer b value.
Proof.
  destruct value as [|flag|n|s|elements|properties];
    try (right; apply answer_no_object; discriminate).
  { right. constructor. }
  destruct (get_property "move" properties) as [v|] eqn:Hmove.
  2:{ right. by apply answer_without_move, get_property_absent. }
  apply get_property_first in Hmove as Hfirst.
  destruct (valid_or_discarded b (Return (Some v))) as [(i & n & [= ->] & Hn)|Hd].
  { left. exists i, properties, n. done. }
  right. inversion Hd as [| |v' Hv|n Hr|n Hint|n j Hj Hocc]; subst.
  - by apply (answer_not_a_number b properties v).
  - by apply (answer_out_of_range b properties n).
  - by apply (answer_not_an_integer b properties n).
  - by apply (answer_not_empty b properties n j).
Qed.

(** The statements from [getAIInstance()] to [jsonResponse.move], by what
    the environment does. *)
Lemma suggested_move_answer API_KEY generateContent JSON_parse request value :
  answers_with API_KEY generateContent JSON_parse request value →
  suggested_move API_KEY generateContent JSON_parse request = member_move value.
Proof.
  intros (key & text & -> & Hkey & Hrequest & Hparse).
  unfold suggested_move, generated_text, getAIInstance, parse_text.
  rewrite bool_decide_eq_false_2 by done. simpl.
  rewrite Hrequest. simpl. by rewrite Hparse.
Qed.

Lemma suggested_move_no_answer API_KEY generateContent JSON_parse request :
  no_answer API_KEY generateContent JSON_parse request →
  ∃ message, suggested_move API_KEY generateContent JSON_parse request = Throw message.
Proof.
  unfold suggested_move, generated_text, getAIInstance, parse_text.
  intros [[-> | ->]|key message -> Hkey Hrequest|key text message -> Hkey Hrequest Hparse].
  - by eexists.
  - by eexists.
  - rewrite bool_decide_eq_false_2 by done. simpl. rewrite Hrequest. by eexists.
  - rewrite bool_decide_eq_false_2 by done. simpl. rewrite Hrequest. simpl.
    rewrite Hparse. by eexists.
Qed.

Lemma answer_or_none API_KEY generateContent JSON_parse request :
  no_answer API_KEY generateContent JSON_parse request ∨
  ∃ value, answers_with API_KEY generateContent JSON_parse request value.
Proof.
  destruct API_KEY as [key|]; [|left; apply missing_credentials; by left].
  destruct (decide (key = ""%string)) as [->|Hkey].
  { left. apply missing_credentials. by right. }
  destruct (generateContent key request) as [text|message] eqn:Hrequest.
  2:{ left. by apply (transport_failure _ _ _ _ key message). }
  destruct (JSON_parse (default "undefined"%string text)) as [value|message] eqn:Hparse.
  2:{ left. by apply (malformed_JSON _ _ _ _ key text message). }
  right. exists value, key, text. done.
Qed.

(** A selector of the shape that [getHardAIMove] and [getTrainedAIMove]
    have, by what the environment does. *)
Lemma try_validate_response_or_fall_back API_KEY generateContent JSON_parse request b r :
  validates_response_or_falls_back API_KEY generateContent JSON_parse request b r
    (try_catch
       (move ← suggested_move API_KEY generateContent JSON_parse request;
        validated_or_medium b r move)
       (λ error, Return (getMediumAIMove b r))).
Proof.
  destruct (try_validate_or_fall_back b r
              (suggested_move API_KEY generateContent JSON_parse request))
    as (Hvalid & Hdiscard & _ & Hreturns).
  unfold validates_response_or_falls_back. split_and!.
  - intros value i Hanswer Hi. apply Hvalid.
    rewrite (suggested_move_answer _ _ _ _ _ Hanswer). by apply valid_answer_validated.
  - intros value Hanswer Hinvalid. apply Hdiscard.
    rewrite (suggested_move_answer _ _ _ _ _ Hanswer). by apply invalid_answer_discarded.
  - intros [message Hraised]%suggested_move_no_answer. apply Hdiscard.
    rewrite Hraised. constructor.
  - destruct (answer_or_none API_KEY generateContent JSON_parse request)
      as [Hnone|[value Hanswer]]; [by left|].
    right. exists value. split; [done|]. apply valid_or_invalid_answer.
  - done.
Qed.

(** C1: whatever the credentials, the external service and [JSON.parse]
    do, on every board each remote-assisted selector (Hard, Trained)
    resolves and never rejects.  When an API key is set, the request
    resolves and the text of the response parses to an object whose [move]
    is a number that is an integer between 0 and 8 naming an empty cell,
    the selector returns that integer.  When the parsed response is
    discarded ([null], no [move], [move] no number, out of range, no
    integer, or naming a cell that is not empty), and when no response is
    obtained (missing credentials, a rejected request, text that does not
    parse), the selector returns the result of the heuristic selector on the
    same board.  One of these is always the case. *)
Theorem remote_selector_validates_or_falls_back
    (API_KEY : option string)
    (generateContent : string → GenerateContentRequest → Completion (option string))
    (JSON_parse : string → Completion JSValue)
    (b : BoardState) (history : list nat) (r : Q) :
  validates_response_or_falls_back API_KEY generateContent JSON_parse
    (hard_request b history) b r
    (getHardAIMove API_KEY generateContent JSON_parse b history r) ∧
  validates_response_or_falls_back API_KEY generateContent JSON_parse
    (trained_request b history) b r
    (getTrainedAIMove API_KEY generateContent JSON_parse b history r).
Proof. split; apply try_validate_response_or_fall_back. Qed.

(** Each case of the statement occurs: a service that suggests the empty
    cell 8 is followed, and one that suggests the occupied cell 0, one that
    suggests 9, one that cannot be reached and a missing API key all give
    the move of the heuristic selector. *)
Lemma remote_selector_validates_or_falls_back_witness :
  let b := [Some X; null; null; null; null; null; null; null; null] in
  getTrainedAIMove (Some "key"%string) (fixed_service "json") (fixed_parser (Finite (inject_Z 8))) b [0] 0
    = Return (Some 8) ∧
  getTrainedAIMove (Some "key"%string) (fixed_service "json") (fixed_parser (Finite 0)) b [0] 0
    = Return (getMediumAIMove b 0) ∧
  getHardAIMove (Some "key"%string) (fixed_service "json") (fixed_parser (Finite (inject_Z 9))) b [0] 0
    = Return (getMediumAIMove b 0) ∧
  getHardAIMove (Some "key"%string) offline_service failing_parser b [0] 0
    = Return (getMediumAIMove b 0) ∧
  getHardAIMove None (fixed_service "json") (fixed_parser (Finite (inject_Z 8))) b [0] 0
    = Return (getMediumAIMove b 0).
Proof.
  intros b. split_and!.
  - destruct (remote_selector_validates_or_falls_back (Some "key"%string)
                (fixed_service "json") (fixed_parser (Finite (inject_Z 8))) b [0] 0)
      as [_ (Hvalid & _)].
    apply (Hvalid (JSObject [("move"%string, JSNum (Finite (inject_Z 8)))]) 8).
    + exists "key"%string, (Some "json"%string). split_and!; [done | done | done | done].
    + exists [("move"%string, JSNum (Finite (inject_Z 8)))], (Finite (inject_Z 8)).
      split_and!; [done | | reflexivity | lia | done].
      exists [], []. split; [done | apply not_elem_of_nil].
  - destruct (remote_selector_validates_or_falls_back (Some "key"%string)
                (fixed_service "json") (fixed_parser (Finite 0)) b [0] 0)
      as [_ (_ & Hinvalid & _)].
    apply (Hinvalid (JSObject [("move"%string, JSNum (Finite 0))])).
    + exists "key"%string, (Some "json"%string). split_and!; [done | done | done | done].
    + apply (answer_not_empty b _ (Finite 0) 0); [| reflexivity | done].
      exists [], []. split; [done | apply not_elem_of_nil].
  - destruct (remote_selector_validates_or_falls_back (Some "key"%string)
                (fixed_service "json") (fixed_parser (Finite (inject_Z 9))) b [0] 0)
      as [(_ & Hinvalid & _) _].
    apply (Hinvalid (JSObject [("move"%string, JSNum (Finite (inject_Z 9)))])).
    + exists "key"%string, (Some "json"%string). split_and!; [done | done | done | done].
    + apply (answer_out_of_range b _ (Finite (inject_Z 9))).
      * exists [], []. split; [done | apply not_elem_of_nil].
      * intros [_ Hle]. vm_compute in Hle. by apply Hle.
  - destruct (remote_selector_validates_or_falls_back (Some "key"%string)
                offline_service failing_parser b [0] 0)
      as [(_ & _ & Hnone & _) _].
    apply Hnone.
    by apply (transport_failure _ _ _ _ "key"%string "TypeError: Failed to fetch"%string).
  - destruct (remote_selector_validates_or_falls_back None
                (fixed_service "json") (fixed_parser (Finite (inject_Z 8))) b [0] 0)
      as [(_ & _ & Hnone & _) _].
    apply Hnone. apply missing_credentials. by left.
Defined.

(** ** The training-example retriever *)

Lemma prefix_lookups {A} (l1 l2 : list A) :
  l1 `prefix_of` l2 ↔ ∀ i x, l1 !! i = Some x → l2 !! i = Some x.
Proof.
  split.
  - intros Hpre i x Hi. by eapply prefix_lookup_Some.
  - revert l2. induction l1 as [|x l1 IH]; intros l2 Hall.
    + apply prefix_nil.
    + destruct l2 as [|y l2].
      * specialize (Hall 0 x eq_refl). done.
      * pose proof (Hall 0 x eq_refl) as [= ->].
        apply prefix_cons, IH. intros i z Hi. by apply (Hall (S i)).
Qed.

Lemma history_matches_true history seq :
  history_matches history seq = true ↔ history `prefix_of` trainingData.moves seq.
Proof.
  unfold history_matches. rewrite every_true, prefix_lookups.
  split; intros H i move Hi; specialize (H i move Hi).
  - by apply bool_decide_eq_true in H.
  - by apply bool_decide_eq_true.
Qed.

Lemma relevantSequences_all_matches corpus history :
  relevantSequences corpus history = take 3 (all_matches corpus history).
Proof.
  unfold relevantSequences, all_matches. f_equal.
  apply list_filter_iff. intros seq. apply history_matches_true.
Qed.

(** C6: for every move history (and corpus) the retriever returns the first
    matching entries of the corpus, in corpus order, three at most: its
    result is the list of all matching entries cut after the third.  So it
    has at most three entries, it is a subsequence of the corpus, each entry
    of it agrees with the move history at every position of the history,
    and it is empty when no entry matches.  The retriever is a function of
    the corpus: nothing is written. *)
Theorem retriever_returns_first_matches
    (corpus : list trainingData.GameSequence) (history : list nat) :
  let result := relevantSequences corpus history in
  length result ≤ 3 ∧
  result `sublist_of` corpus ∧
  result `prefix_of` all_matches corpus history ∧
  length result = 3 `min` length (all_matches corpus history) ∧
  (∀ seq, seq ∈ result →
     ∀ i move, i < length history → history !! i = Some move →
       trainingData.moves seq !! i = Some move) ∧
  ((∀ seq, seq ∈ corpus → ¬ history `prefix_of` trainingData.moves seq) → result = []).
Proof.
  cbv zeta. rewrite relevantSequences_all_matches. split_and!.
  - rewrite length_take. lia.
  - etrans; [apply sublist_take | apply sublist_filter].
  - apply prefix_take.
  - apply length_take.
  - intros seq Hin i move _ Hi.
    pose proof (elem_of_sublist _ _ _ Hin (sublist_take _ _)) as Hin'.
    unfold all_matches in Hin'. rewrite list_elem_of_filter in Hin'.
    destruct Hin' as [Hpre _]. by eapply prefix_lookup_Some.
  - intros Hno.
    destruct (all_matches corpus history) as [|seq rest] eqn:Hall; [done|].
    assert (seq ∈ all_matches corpus history) as Hin by (rewrite Hall; left).
    unfold all_matches in Hin. rewrite list_elem_of_filter in Hin.
    destruct Hin as [Hpre Hin]. by destruct (Hno seq Hin).
Qed.

(** The example of the spec (section 8): the entries for the history 4, 0. *)
Example retriever_example :
  relevantSequences trainingData.winningGameSequences [4; 0] =
  [ trainingData.mkGameSequence X [4; 0; 1; 2; 7];
    trainingData.mkGameSequence O [4; 0; 6; 3; 2] ].
Proof. reflexivity. Qed.

Example retriever_example_three :
  relevantSequences trainingData.winningGameSequences [0] =
  [ trainingData.mkGameSequence O [0; 4; 1; 2; 3; 6];
    trainingData.mkGameSequence O [0; 1; 4; 2; 8];
    trainingData.mkGameSequence O [0; 3; 4; 5; 8] ].
Proof. reflexivity. Qed.

(** ** The commentary generator *)




(** ** The orchestrator *)

Lemma checkGameStatus_frame b s st :
  board (checkGameStatus b s st) = board st ∧
  moveHistory (checkGameStatus b s st) = moveHistory st ∧
  isPlayerTurn (checkGameStatus b s st) = isPlayerTurn st ∧
  isAiThinking (checkGameStatus b s st) = isAiThinking st ∧
  difficulty (checkGameStatus b s st) = difficulty st.
Proof.
  unfold checkGameStatus. destruct (checkWinner b); [done|].
  by destruct (board_full b).
Qed.

Lemma outcome_in_progress st :
  outcome st = InProgress ↔ winnerInfo st = None ∧ isDraw st = false.
Proof.
  unfold outcome. destruct (winnerInfo st); [by split; [|intros []]|].
  destruct (isDraw st); by split; [|intros []].
Qed.

(** The guard of [handleCellClick] returns exactly on an illegal click. *)
Lemma handleCellClick_guard st index :
  occupied (board st) index || bool_decide (winnerInfo st ≠ None) || isDraw st
    || negb (isPlayerTurn st) = true ↔ illegal_click st index.
Proof.
  unfold illegal_click. rewrite !orb_true_iff, bool_decide_eq_true, negb_true_iff.
  assert (outcome st ≠ InProgress ↔ winnerInfo st ≠ None ∨ isDraw st = true) as ->.
  { rewrite outcome_in_progress. destruct (winnerInfo st), (isDraw st); intuition congruence. }
  tauto.
Qed.

Lemma handleCellClick_cases st index :
  (illegal_click st index ∧ handleCellClick index st = st) ∨
  (¬ illegal_click st index ∧ isPlayerTurn (handleCellClick index st) = false).
Proof.
  unfold handleCellClick.
  destruct (occupied (board st) index || bool_decide (winnerInfo st ≠ None) || isDraw st
            || negb (isPlayerTurn st)) eqn:Hguard.
  - left. split; [by apply handleCellClick_guard | done].
  - right. split.
    + rewrite <- handleCellClick_guard. congruence.
    + by rewrite (proj1 (proj2 (proj2 (checkGameStatus_frame _ _ _)))).
Qed.

Section Orchestrator.

Variable API_KEY : option string.
Variable JSON_parse : string → Completion JSValue.

#[local] Abbreviation dispatch := (dispatch API_KEY JSON_parse).
#[local] Abbreviation run := (run API_KEY JSON_parse).
#[local] Abbreviation reachable := (reachable API_KEY JSON_parse).
#[local] Abbreviation aiMove_resume := (aiMove_resume API_KEY JSON_parse).

Lemma effect_same st pending : effect st st pending = mkSystem st pending.
Proof. unfold effect. by rewrite bool_decide_eq_false_2 by (by intros []). Qed.

Lemma run_snoc events e sys :
  run (events ++ [e]) sys = dispatch e (run events sys).
Proof. unfold run. by rewrite foldl_app. Qed.

(** Induction on the events that lead to a reachable state. *)
Lemma reachable_ind (P : System → Prop) :
  (∀ d s g dark, P (initialSystem d s g dark)) →
  (∀ sys e, reachable sys → P sys → P (dispatch e sys)) →
  ∀ sys, reachable sys → P sys.
Proof.
  intros Hinit Hstep sys (d & s & g & dark & events & <-).
  induction events as [|e events IH] using rev_ind; [apply Hinit|].
  rewrite run_snoc. apply Hstep; [|done]. by exists d, s, g, dark, events.
Qed.

Lemma effect_thinking prev next pending :
  thinking_out_of_turn next → thinking_out_of_turn (app (effect prev next pending)).
Proof.
  intros Hnext. unfold effect.
  destruct (bool_decide (effect_deps prev ≠ effect_deps next)); [|done].
  destruct (isPlayerTurn next) eqn:Hturn; [done|]. simpl.
  destruct (bool_decide (winnerInfo next = None) && negb (isDraw next)); [|done].
  unfold aiMove_start. case_bool_decide; simpl; [done|]. by intros _.
Qed.

Lemma aiMove_resume_thinking task r service st :
  aiMove_resume task r service st = st ∨
  isAiThinking (aiMove_resume task r service st) = false.
Proof.
  unfold aiMove_resume.
  destruct (select_move API_KEY JSON_parse task r service) as [[i|]|]; [| by right | by left].
  case_bool_decide; [|by right].
  match goal with |- context [match ?c with Return _ => _ | Throw _ => _ end] =>
    destruct c end; [by right | by left].
Qed.

Lemma reachable_thinking_out_of_turn sys :
  reachable sys → thinking_out_of_turn (app sys).
Proof.
  revert sys. apply reachable_ind; [done|].
  intros [st pending] e _ IH. simpl in IH. destruct e; simpl.
  - case_bool_decide; [|done]. apply effect_thinking.
    destruct (handleCellClick_cases st index) as [[_ ->]|[_ Hturn]]; [done|].
    by intros _.
  - by apply effect_thinking.
  - by apply effect_thinking.
  - done.
  - done.
  - done.
  - destruct (pending !! k) as [task|]; [|done]. apply effect_thinking.
    destruct (aiMove_resume_thinking task r service st) as [->|Hoff]; [done|].
    intros Hon. congruence.
Qed.

(** C8: an illegal click (on a cell that holds a mark, out of the human's
    turn, after the game has ended) and a click while the AI is thinking
    leave the state of the game as it was, every field of it, and start
    nothing: the handler returns at its guard.  The handler is a total
    function, which cannot raise. *)
Theorem illegal_click_changes_nothing (sys : System) (index : nat) :
  illegal_click (app sys) index ∨ (reachable sys ∧ isAiThinking (app sys) = true) →
  handleCellClick index (app sys) = app sys ∧ dispatch (Click index) sys = sys.
Proof.
  intros Hillegal.
  assert (illegal_click (app sys) index) as Hill.
  { destruct Hillegal as [H|[Hreach Hthinking]]; [done|].
    right; left. by apply reachable_thinking_out_of_turn. }
  destruct (handleCellClick_cases (app sys) index) as [[_ Hsame]|[Hlegal _]]; [|done].
  split; [done|]. destruct sys as [st pending]. simpl in *.
  case_bool_decide; [|done]. by rewrite Hsame, effect_same.
Qed.

(** *** Runs that restart the game only between the turns of the AI *)

Lemma count_marked_set b i p :
  b !! i = Some null → count_marked (array_set b i (Some p)) = S (count_marked b).
Proof.
  unfold count_marked, array_set. revert i.
  induction b as [|cell b IH]; intros [|i]; simpl; try done.
  - intros [= ->]. rewrite !filter_cons.
    destruct (decide (null ≠ null)) as [Hne|_]; [by destruct Hne | done].
  - intros Hi. rewrite !filter_cons. destruct (decide (cell ≠ null)); simpl; by rewrite IH.
Qed.

Lemma consistent_frame st st' :
  board st' = board st → moveHistory st' = moveHistory st →
  isPlayerTurn st' = isPlayerTurn st →
  history_consistent st → history_consistent st'.
Proof.
  intros Hb Hh Ht [H1 H2 H3 H4 H5]. split; by rewrite ?Hb, ?Hh, ?Ht.
Qed.

(** A mark of the player whose turn it is, written on an empty cell and
    appended to the history, keeps the history consistent. *)
Lemma consistent_move st st' i :
  history_consistent st →
  board st !! i = Some null →
  board st' = array_set (board st) i (Some (if isPlayerTurn st then X else O)) →
  moveHistory st' = moveHistory st ++ [i] →
  isPlayerTurn st' = negb (isPlayerTurn st) →
  history_consistent st'.
Proof.
  intros [Hlen Hcount Hdistinct Hmarks Hturn] Hempty Hb Hh Ht.
  assert (i ∉ moveHistory st) as Hfresh.
  { intros [k Hk]%list_elem_of_lookup. apply Hmarks in Hk. congruence. }
  apply lookup_lt_Some in Hempty as Hi.
  split; rewrite ?Hb, ?Hh, ?Ht.
  - unfold array_set. by rewrite length_insert.
  - rewrite length_app, count_marked_set by done. simpl. lia.
  - apply NoDup_app. split_and!; [done | | apply NoDup_singleton].
    intros x Hx ->%list_elem_of_singleton. done.
  - intros k j Hk. rewrite (lookup_array_set _ _ _ _ Hi).
    apply lookup_app_Some in Hk as [Hk|[Hge Hk]].
    + rewrite decide_False; [by apply Hmarks|].
      intros ->. apply Hfresh. by eapply list_elem_of_lookup_2.
    + apply list_lookup_singleton_Some in Hk as [Hk <-].
      rewrite decide_True by done. do 2 f_equal.
      assert (k = length (moveHistory st)) as -> by lia.
      unfold mark_at. by rewrite <- Hturn.
  - rewrite length_app, Hturn. simpl. rewrite Nat.add_1_r, Nat.even_succ.
    by rewrite <- Nat.negb_even.
Qed.

Lemma handleCellClick_legal st index :
  ¬ illegal_click st index → index < length (board st) →
  board st !! index = Some null ∧ isPlayerTurn st = true ∧
  board (handleCellClick index st) = array_set (board st) index (Some X) ∧
  moveHistory (handleCellClick index st) = moveHistory st ++ [index] ∧
  isPlayerTurn (handleCellClick index st) = false.
Proof.
  intros Hlegal Hindex. unfold handleCellClick.
  destruct (occupied (board st) index || bool_decide (winnerInfo st ≠ None) || isDraw st
            || negb (isPlayerTurn st)) eqn:Hguard.
  { by apply handleCellClick_guard in Hguard. }
  destruct (checkGameStatus_frame (array_set (board st) index (Some X)) (scores st)
    (setIsPlayerTurn false
       (setMoveHistory (moveHistory (setBoard (array_set (board st) index (Some X)) st) ++ [index])
          (setBoard (array_set (board st) index (Some X)) st))))
    as (-> & -> & -> & _).
  unfold illegal_click, occupied in Hlegal.
  destruct (lookup_lt_is_Some_2 _ _ Hindex) as [cell Hcell]. rewrite Hcell in Hlegal.
  split_and!; try done.
  - destruct cell; [|done]. destruct Hlegal. by left.
  - destruct (isPlayerTurn st); [done|]. destruct Hlegal. right. by left.
Qed.

Lemma effect_deps_same prev next pending :
  effect_deps prev = effect_deps next → effect prev next pending = mkSystem next pending.
Proof. intros Hdeps. unfold effect. by rewrite bool_decide_eq_false_2 by (by intros []). Qed.

Lemma effect_player_turn prev next pending :
  isPlayerTurn next = true → effect prev next pending = mkSystem next pending.
Proof. intros Hturn. unfold effect. rewrite Hturn. simpl. by rewrite andb_false_r. Qed.

(** The effect writes neither the board nor the history nor the turn, and
    the [aiMove] that it may start holds the board of the state. *)
Lemma effect_frame prev next pending :
  board (app (effect prev next pending)) = board next ∧
  moveHistory (app (effect prev next pending)) = moveHistory next ∧
  isPlayerTurn (app (effect prev next pending)) = isPlayerTurn next ∧
  (tasks (effect prev next pending) = pending ∨
   ∃ task, tasks (effect prev next pending) = pending ++ [task] ∧
           currentBoard task = board next ∧ isPlayerTurn next = false).
Proof.
  unfold effect.
  destruct (bool_decide (effect_deps prev ≠ effect_deps next)); simpl; [|by auto].
  destruct (isPlayerTurn next) eqn:Hturn; simpl; [by auto|].
  destruct (bool_decide (winnerInfo next = None) && negb (isDraw next)); simpl; [|by auto].
  unfold aiMove_start. case_bool_decide; simpl.
  - rewrite app_nil_r. by auto.
  - split_and!; try done. right. by eexists.
Qed.

(** How a resumed [aiMove] ends: without a write to the fields that the
    effect depends on, or with its move on a cell that is empty on the board
    it holds. *)
Lemma aiMove_resume_cases task r service st :
  effect_deps (aiMove_resume task r service st) = effect_deps st ∧
    moveHistory (aiMove_resume task r service st) = moveHistory st
  ∨ ∃ i, currentBoard task !! i = Some null ∧
         board (aiMove_resume task r service st) = array_set (currentBoard task) i (Some O) ∧
         moveHistory (aiMove_resume task r service st) = moveHistory st ++ [i] ∧
         isPlayerTurn (aiMove_resume task r service st) = true.
Proof.
  unfold aiMove_resume.
  destruct (select_move API_KEY JSON_parse task r service) as [[i|]|]; [| by left | by left].
  case_bool_decide as Hempty; [|by left].
  match goal with |- context [match ?c with Return _ => _ | Throw _ => _ end] =>
    destruct c as [text|] end; [|by left].
  right. exists i. split; [done|]. simpl.
  match goal with |- context [checkGameStatus ?b ?s ?st'] =>
    destruct (checkGameStatus_frame b s st') as (-> & -> & _) end.
  done.
Qed.

Lemma restart_consistent st : history_consistent (restartGame st).
Proof.
  split; simpl; [done | done | apply NoDup_nil_2 | | done].
  intros k i Hk. by rewrite lookup_nil in Hk.
Qed.

Lemma tasks_current_none st : tasks_current (mkSystem st []).
Proof. intros task Hin. by apply elem_of_nil in Hin. Qed.

(** One calm event keeps the history consistent and changes the board by
    at most a restart or one mark on an empty cell. *)
Lemma calm_dispatch sys e :
  history_consistent (app sys) → tasks_current sys → calm e sys →
  history_consistent (app (dispatch e sys)) ∧
  tasks_current (dispatch e sys) ∧
  board_change (board (app sys)) (board (app (dispatch e sys))).
Proof.
  destruct sys as [st pending]. simpl. intros Hcons Htasks Hcalm.
  assert (∀ next, isPlayerTurn next = true →
            tasks_current (effect st next [])) as Hturn_tasks.
  { intros next Hnext. rewrite effect_player_turn by done. apply tasks_current_none. }
  destruct e; simpl in *.
  - (* Click *)
    case_bool_decide as Hindex; [|split_and!; [done | done | by apply board_kept]].
    destruct (handleCellClick_cases st index) as [[_ ->]|[Hlegal _]].
    { rewrite effect_same. split_and!; [done | done | by apply board_kept]. }
    destruct (handleCellClick_legal st index Hlegal Hindex)
      as (Hempty & Hturn & Hb & Hh & Ht).
    assert (pending = []) as ->.
    { destruct pending as [|task ?]; [done|].
      destruct (Htasks task) as (_ & _ & Hfalse); [left | simpl in Hfalse; congruence]. }
    destruct (effect_frame st (handleCellClick index st) []) as (Hb' & Hh' & Ht' & Hts).
    split_and!.
    + apply (consistent_frame (handleCellClick index st)); [done..|].
      apply (consistent_move st _ index); rewrite ?Hturn; done.
    + intros task Hin. unfold app at 1. fold (app (effect st (handleCellClick index st) [])).
      rewrite Hb', Ht'.
      destruct Hts as [Hts|(task' & Hts & Hboard & Hfalse)]; rewrite Hts in Hin |- *.
      * by apply elem_of_nil in Hin.
      * simpl in *. apply list_elem_of_singleton in Hin as ->. done.
    + rewrite Hb', Hb. by eapply board_marked.
  - (* ClickRestart *)
    subst pending. rewrite effect_player_turn by done. simpl.
    split_and!; [apply restart_consistent | apply tasks_current_none | by apply board_cleared].
  - (* SelectDifficulty *)
    subst pending. rewrite effect_player_turn by done. simpl.
    split_and!; [apply restart_consistent | apply tasks_current_none | by apply board_cleared].
  - split_and!; [by destruct Hcons | done | by apply board_kept].
  - split_and!; [by destruct Hcons | done | by apply board_kept].
  - split_and!; [by destruct Hcons | done | by apply board_kept].
  - (* AiResumes *)
    destruct (pending !! k) as [task|] eqn:Hk; [|split_and!; [done | done | by apply board_kept]].
    destruct (Htasks task) as (Hone & Hboard & Hturn); [by eapply list_elem_of_lookup_2|].
    simpl in Hone, Hboard, Hturn. subst pending.
    assert (k = 0) as ->.
    { apply lookup_lt_Some in Hk. simpl in Hk. lia. }
    simpl.
    destruct (aiMove_resume_cases task r service st)
      as [[Hdeps Hh]|(i & Hempty & Hb & Hh & Ht)].
    + rewrite effect_deps_same by done. simpl.
      assert (board (aiMove_resume task r service st) = board st
              ∧ isPlayerTurn (aiMove_resume task r service st) = isPlayerTurn st)
        as [Hb Ht] by (unfold effect_deps in Hdeps; by simplify_eq).
      split_and!; [by eapply consistent_frame | apply tasks_current_none |].
      by apply board_kept.
    + rewrite effect_player_turn by done. simpl. rewrite Hboard in Hempty, Hb.
      split_and!; [| apply tasks_current_none | by eapply board_marked].
      apply (consistent_move st _ i); rewrite ?Hturn; done.
Qed.

Lemma initial_consistent d s g dark :
  history_consistent (initialState d s g dark).
Proof.
  split; simpl; [done | done | apply NoDup_nil_2 | | done].
  intros k i Hk. by rewrite lookup_nil in Hk.
Qed.

(** As long as the game is restarted only while no [aiMove] is suspended,
    the invariants of C9 and C10 hold: the history is as long as the board
    has marks, its entries are distinct cells that hold X at even and O at
    odd positions, and every event leaves the board, clears it by a restart
    or writes one mark on an empty cell. *)
Lemma calm_runs_consistent sys :
  calmly_reachable API_KEY JSON_parse sys →
  history_consistent (app sys) ∧ tasks_current sys ∧
  ∀ e, calm e sys → board_change (board (app sys)) (board (app (dispatch e sys))).
Proof.
  assert (calmly_reachable API_KEY JSON_parse sys →
          history_consistent (app sys) ∧ tasks_current sys) as Hinv.
  { induction 1 as [d s g dark|sys e _ [IHc IHt] Hcalm].
    - split; [apply initial_consistent | apply tasks_current_none].
    - destruct (calm_dispatch sys e IHc IHt Hcalm) as (? & ? & _). done. }
  intros [Hc Ht]%Hinv. split_and!; [done | done |].
  intros e Hcalm. by destruct (calm_dispatch sys e Hc Ht Hcalm) as (_ & _ & ?).
Qed.

End Orchestrator.

(** The theorem of C8 at a state of the game: after the human's first move
    the AI is thinking, and a click on the free centre changes nothing. *)
Lemma illegal_click_changes_nothing_witness :
  let sys := run None failing_parser [Click 0] freshSystem in
  handleCellClick 4 (app sys) = app sys ∧
  dispatch None failing_parser (Click 4) sys = sys.
Proof.
  apply (illegal_click_changes_nothing None failing_parser
           (run None failing_parser [Click 0] freshSystem) 4).
  right. split; [|reflexivity].
  exists Medium, (mkScores 0 0 0), 0, false, [Click 0]. reflexivity.
Defined.

(** *** The suspended [aiMove] that outlives a restart *)

(** C10 fails on the code.  The human plays cell 0, restarts the game while
    the AI is thinking, and the suspended [aiMove] then resumes: it writes
    the board it was started with, X on cell 0 and its own O on cell 4, and
    appends cell 4 to the history that the restart emptied.  The board
    holds two marks, the history one entry, and the entry at position 0 is a
    move of O. *)
Lemma restart_while_thinking_breaks_history :
  let sys := run None failing_parser
               [Click 0; ClickRestart; AiResumes 0 0 offline_service] freshSystem in
  reachable None failing_parser sys ∧
  board (app sys) = [Some X; null; null; null; Some O; null; null; null; null] ∧
  moveHistory (app sys) = [4] ∧
  count_marked (board (app sys)) = 2 ∧
  length (moveHistory (app sys)) = 1 ∧
  board (app sys) !! 4 = Some (Some O) ∧ mark_at 0 = X ∧
  ¬ history_consistent (app sys).
Proof.
  cbv zeta. split; [|split_and!].
  - exists Medium, (mkScores 0 0 0), 0, false,
      [Click 0; ClickRestart; AiResumes 0 0 offline_service].
    vm_compute. reflexivity.
  - vm_compute. reflexivity.
  - vm_compute. reflexivity.
  - vm_compute. reflexivity.
  - vm_compute. reflexivity.
  - vm_compute. reflexivity.
  - reflexivity.
  - intros [_ Hcount _ _ _]. vm_compute in Hcount. discriminate.
Qed.

(** C9 fails on the code.  The human plays cell 4 and restarts the game
    while the AI is thinking, then plays cell 0 in the new game; the
    [aiMove] of the old game resumes and writes its board over the new one.
    Cell 0, which held the human's X, now holds O, and cell 4, which was
    empty, holds an X that no click put there: the change is neither a
    restart nor one mark on an empty cell. *)
Lemma restart_while_thinking_overwrites_mark :
  let before := run None failing_parser [Click 4; ClickRestart; Click 0] freshSystem in
  let after := dispatch None failing_parser (AiResumes 0 0 offline_service) before in
  reachable None failing_parser after ∧
  board (app before) = [Some X; null; null; null; null; null; null; null; null] ∧
  board (app after) = [Some O; null; null; null; Some X; null; null; null; null] ∧
  ¬ board_change (board (app before)) (board (app after)).
Proof.
  cbv zeta. split; [|split_and!].
  - exists Medium, (mkScores 0 0 0), 0, false,
      [Click 4; ClickRestart; Click 0; AiResumes 0 0 offline_service].
    vm_compute. reflexivity.
  - vm_compute. reflexivity.
  - vm_compute. reflexivity.
  - intros [Hkept|Hcleared|i p Hempty Hmarked].
    + vm_compute in Hkept. discriminate.
    + vm_compute in Hcleared. discriminate.
    + vm_compute in Hempty, Hmarked.
      destruct i as [|i]; [discriminate|]. simpl in Hmarked. discriminate.
Qed.

(** The two runs are not calm: each restarts the game while an [aiMove] is
    suspended. *)
Lemma failing_runs_not_calm :
  ¬ calm ClickRestart (run None failing_parser [Click 0] freshSystem) ∧
  ¬ calm ClickRestart (run None failing_parser [Click 4] freshSystem).
Proof. split; intros Hcalm; vm_compute in Hcalm; discriminate. Qed.

(** ** The selectors on examples *)

(** The service suggests 9 (out of range), 2.5 (not an integer), 0 (a cell
    that holds X), 4 (valid), or cannot be reached; no API key is set. *)
Example remote_selector_examples :
  let b := [Some X; null; null; null; null; null; null; null; null] in
  getHardAIMove (Some "key"%string) (fixed_service "json") (fixed_parser (Finite (inject_Z 9))) b [0] 0
    = Return (getMediumAIMove b 0) ∧
  getHardAIMove (Some "key"%string) (fixed_service "json") (fixed_parser (Finite (5 # 2))) b [0] 0
    = Return (getMediumAIMove b 0) ∧
  getTrainedAIMove (Some "key"%string) (fixed_service "json") (fixed_parser (Finite 0)) b [0] 0
    = Return (getMediumAIMove b 0) ∧
  getTrainedAIMove (Some "key"%string) (fixed_service "json") (fixed_parser (Finite (inject_Z 8))) b [0] 0
    = Return (Some 8) ∧
  getHardAIMove (Some "key"%string) offline_service failing_parser b [0] 0
    = Return (Some 4) ∧
  getHardAIMove None (fixed_service "json") (fixed_parser (Finite (inject_Z 8))) b [0] 0
    = Return (Some 4).
Proof. cbv zeta. split_and!; vm_compute; reflexivity. Qed.

(** * Further properties of the code *)

(** ** The heuristic selector: the steps after the centre *)

(** The random number that makes [Math.floor(r * n)] the index [k]. *)
Lemma random_index_hit k n :
  k < n →
  unit_interval (Z.of_nat k # Pos.of_nat n) ∧
  random_index (Z.of_nat k # Pos.of_nat n) n = Z.of_nat k.
Proof.
  intros Hk.
  assert (Z.pos (Pos.of_nat n) = Z.of_nat n) as Hn.
  { rewrite <- positive_nat_Z, Nat2Pos.id; lia. }
  split; [split|].
  - unfold Qle. simpl. lia.
  - unfold Qlt. simpl. lia.
  - unfold random_index.
    rewrite (Qfloor_comp _ (inject_Z (Z.of_nat k))); [apply Qfloor_Z|].
    unfold Qeq, Qmult, inject_Z. simpl. rewrite Pos.mul_1_r, Hn. lia.
Qed.

Lemma random_pick_any {A} (arr : list A) k x :
  arr !! k = Some x →
  ∃ r, unit_interval r ∧ array_get_Z arr (random_index r (length arr)) = Some x.
Proof.
  intros Hk. apply lookup_lt_Some in Hk as Hlt.
  destruct (random_index_hit k (length arr) Hlt) as [Hr Hidx].
  exists (Z.of_nat k # Pos.of_nat (length arr)). split; [done|].
  rewrite Hidx. unfold array_get_Z.
  destruct (Z.ltb_spec (Z.of_nat k) 0); [lia|]. by rewrite Nat2Z.id.
Qed.

(** With an empty cell and a random number of the range, the chain reaches
    a [return] with an index. *)
Lemma getMediumAIMove_is_Some b r j :
  b !! j = Some null → unit_interval r → ∃ i, getMediumAIMove b r = Some i.
Proof.
  intros Hj Hr. unfold getMediumAIMove.
  destruct (findWinningMove b O) as [w|]; [by eexists|].
  destruct (findWinningMove b X) as [w|]; [by eexists|].
  case_bool_decide; [by eexists|]. cbv zeta.
  destruct (Nat.ltb_spec 0 (length (available_among b [0; 2; 6; 8]))) as [Hc|_].
  { destruct (random_pick _ r Hr Hc) as (x & -> & _). by eexists. }
  destruct (Nat.ltb_spec 0 (length (available_among b [1; 3; 5; 7]))) as [Hs|_].
  { destruct (random_pick _ r Hr Hs) as (x & -> & _). by eexists. }
  apply elem_of_availableCells in Hj.
  destruct (availableCells b) as [|x cells]; [by apply elem_of_nil in Hj|].
  by exists x.
Qed.

(** The selector past its first three steps: what it returns when neither
    mark wins by playing and the centre is taken. *)
Lemma getMediumAIMove_past_centre b r :
  (∀ j, j < 9 → ¬ wins_by_playing b O j) →
  (∀ j, j < 9 → ¬ wins_by_playing b X j) →
  b !! 4 ≠ Some null →
  getMediumAIMove b r =
    if 0 <? length (available_among b [0; 2; 6; 8])
    then array_get_Z (available_among b [0; 2; 6; 8])
           (random_index r (length (available_among b [0; 2; 6; 8])))
    else if 0 <? length (available_among b [1; 3; 5; 7])
    then array_get_Z (available_among b [1; 3; 5; 7])
           (random_index r (length (available_among b [1; 3; 5; 7])))
    else availableCells b !! 0.
Proof.
  intros HO%findWinningMove_None HX%findWinningMove_None Hcentre.
  unfold getMediumAIMove. rewrite HO, HX.
  by rewrite bool_decide_eq_false_2.
Qed.

Lemma available_among_nonempty b indices c :
  c ∈ indices → b !! c = Some null → 0 < length (available_among b indices).
Proof.
  intros Hin Hc.
  assert (c ∈ available_among b indices) as Hc' by (by apply elem_of_available_among).
  destruct (available_among b indices); [by apply elem_of_nil in Hc' | simpl; lia].
Qed.

Lemma available_among_empty b indices :
  (∀ c, c ∈ indices → b !! c ≠ Some null) → available_among b indices = [].
Proof.
  intros Hno. destruct (available_among b indices) as [|c rest] eqn:E; [done|].
  assert (c ∈ available_among b indices) as Hc by (rewrite E; left).
  apply elem_of_available_among in Hc as [Hnull Hin]. by destruct (Hno c Hin).
Qed.

(** X1: steps 4 and 5 of the heuristic selector.  When neither mark wins by
    playing and the centre is taken, the selector returns an empty corner if
    there is one, and an empty side if there is no empty corner but an empty
    side; the random number decides among them only, and each empty corner
    (each empty side) is returned for some random number. *)
Theorem heuristic_corners_then_sides (b : BoardState) :
  (∀ j, j < 9 → ¬ wins_by_playing b O j) →
  (∀ j, j < 9 → ¬ wins_by_playing b X j) →
  b !! 4 ≠ Some null →
  ((∃ c, c ∈ [0; 2; 6; 8] ∧ b !! c = Some null) →
     (∀ r, unit_interval r →
        ∃ i, getMediumAIMove b r = Some i ∧ i ∈ [0; 2; 6; 8] ∧ b !! i = Some null) ∧
     (∀ c, c ∈ [0; 2; 6; 8] → b !! c = Some null →
        ∃ r, unit_interval r ∧ getMediumAIMove b r = Some c)) ∧
  ((∀ c, c ∈ [0; 2; 6; 8] → b !! c ≠ Some null) →
   (∃ c, c ∈ [1; 3; 5; 7] ∧ b !! c = Some null) →
     (∀ r, unit_interval r →
        ∃ i, getMediumAIMove b r = Some i ∧ i ∈ [1; 3; 5; 7] ∧ b !! i = Some null) ∧
     (∀ c, c ∈ [1; 3; 5; 7] → b !! c = Some null →
        ∃ r, unit_interval r ∧ getMediumAIMove b r = Some c)).
Proof.
  intros HO HX Hcentre.
  pose proof (λ r, getMediumAIMove_past_centre b r HO HX Hcentre) as Hmove.
  split.
  - intros (c & Hin & Hc).
    pose proof (available_among_nonempty b _ c Hin Hc) as Hlen.
    apply Nat.ltb_lt in Hlen as Hlen'. split.
    + intros r Hr. rewrite Hmove, Hlen'.
      destruct (random_pick _ r Hr Hlen) as (i & -> & Hi).
      apply elem_of_available_among in Hi as [? ?]. by exists i.
    + intros c' Hin' Hc'.
      assert (c' ∈ available_among b [0; 2; 6; 8]) as [k Hk]%list_elem_of_lookup
        by (by apply elem_of_available_among).
      destruct (random_pick_any _ k c' Hk) as (r & Hr & Hpick).
      exists r. split; [done|]. by rewrite Hmove, Hlen'.
  - intros Hno (c & Hin & Hc).
    pose proof (available_among_empty b _ Hno) as Hcorners.
    pose proof (available_among_nonempty b _ c Hin Hc) as Hlen.
    apply Nat.ltb_lt in Hlen as Hlen'. split.
    + intros r Hr. rewrite Hmove, Hcorners, Hlen'. simpl.
      destruct (random_pick _ r Hr Hlen) as (i & -> & Hi).
      apply elem_of_available_among in Hi as [? ?]. by exists i.
    + intros c' Hin' Hc'.
      assert (c' ∈ available_among b [1; 3; 5; 7]) as [k Hk]%list_elem_of_lookup
        by (by apply elem_of_available_among).
      destruct (random_pick_any _ k c' Hk) as (r & Hr & Hpick).
      exists r. split; [done|]. by rewrite Hmove, Hcorners, Hlen'.
Qed.

Lemma heuristic_corners_then_sides_witness :
  (∀ r, unit_interval r →
     ∃ i, getMediumAIMove [null; null; null; null; Some X; null; null; null; null] r = Some i
          ∧ i ∈ [0; 2; 6; 8]
          ∧ [null; null; null; null; Some X; null; null; null; null] !! i = Some null) ∧
  ∃ r, unit_interval r ∧
       getMediumAIMove [null; null; null; null; Some X; null; null; null; null] r = Some 6.
Proof.
  destruct (heuristic_corners_then_sides
              [null; null; null; null; Some X; null; null; null; null]) as [Hcorners _].
  - apply findWinningMove_None. reflexivity.
  - apply findWinningMove_None. reflexivity.
  - discriminate.
  - destruct Hcorners as [Hall Hany].
    + exists 0. split; [left | reflexivity].
    + split; [exact Hall|]. apply Hany; [|reflexivity]. do 2 right. left.
Defined.

(** X2: the selector returns [undefined] exactly on a board with no empty
    cell (where [availableCells[0]] is read off an empty array); with an
    empty cell it returns a number. *)
Theorem heuristic_undefined_iff_no_empty_cell (b : BoardState) (r : Q) :
  unit_interval r →
  getMediumAIMove b r = None ↔ ∀ j, b !! j ≠ Some null.
Proof.
  intros Hr. split.
  - intros Hnone j Hj.
    destruct (getMediumAIMove_is_Some b r j Hj Hr) as [i Hi]. congruence.
  - intros Hfull. destruct (getMediumAIMove b r) as [i|] eqn:Hi; [|done].
    apply getMediumAIMove_empty in Hi. by destruct (Hfull i).
Qed.

Lemma heuristic_undefined_iff_no_empty_cell_witness :
  getMediumAIMove [Some X; Some O; Some X; Some X; Some O; Some O; Some O; Some X; Some X] (1 # 2)
    = None.
Proof.
  apply (heuristic_undefined_iff_no_empty_cell
           [Some X; Some O; Some X; Some X; Some O; Some O; Some O; Some X; Some X] (1 # 2)).
  - split; [discriminate | reflexivity].
  - intros j. do 9 (destruct j as [|j]; [discriminate|]). discriminate.
Defined.

(** ** The remote-assisted selectors: what holds whatever the service does *)

(** X3: on a board of nine cells with an empty cell, the Hard and Trained
    selectors resolve to the index of an empty cell, whatever the
    credentials, the service and [JSON.parse] do: the validation lets only
    such an index through, and the fallback supplies one. *)
Theorem remote_selector_returns_empty_cell
    (API_KEY : option string) (generateContent : Service)
    (JSON_parse : string → Completion JSValue)
    (b : BoardState) (history : list nat) (r : Q) :
  well_formed b →
  (∃ j, b !! j = Some null) →
  unit_interval r →
  (∃ i, getHardAIMove API_KEY generateContent JSON_parse b history r = Return (Some i)
        ∧ i ≤ 8 ∧ b !! i = Some null) ∧
  (∃ i, getTrainedAIMove API_KEY generateContent JSON_parse b history r = Return (Some i)
        ∧ i ≤ 8 ∧ b !! i = Some null).
Proof.
  intros Hwf [j Hj] Hr.
  assert (∀ suggestion,
            ∃ i, try_catch (move ← suggestion; validated_or_medium b r move)
                   (λ error, Return (getMediumAIMove b r)) = Return (Some i)
                 ∧ i ≤ 8 ∧ b !! i = Some null) as Hboth.
  { intros suggestion.
    destruct (try_validate_or_fall_back b r suggestion) as (Hvalid & Hdiscard & Hcases & _).
    destruct Hcases as [[i Hi]|Hd].
    - exists i. split; [by apply Hvalid|]. by destruct Hi as (n & _ & _ & ? & ?).
    - destruct (getMediumAIMove_is_Some b r j Hj Hr) as [i Hi].
      exists i. split; [by rewrite Hdiscard, Hi|].
      apply getMediumAIMove_empty in Hi as Hempty. split; [|done].
      apply lookup_lt_Some in Hempty. unfold well_formed in Hwf. lia. }
  split; apply Hboth.
Qed.

Lemma remote_selector_returns_empty_cell_witness :
  (∃ i, getHardAIMove (Some "key"%string) (fixed_service "json")
          (fixed_parser (Finite (inject_Z 9)))
          [Some X; null; null; null; null; null; null; null; null] [0] 0 = Return (Some i)
        ∧ i ≤ 8
        ∧ [Some X; null; null; null; null; null; null; null; null] !! i = Some null) ∧
  (∃ i, getTrainedAIMove (Some "key"%string) (fixed_service "json")
          (fixed_parser (Finite (inject_Z 9)))
          [Some X; null; null; null; null; null; null; null; null] [0] 0 = Return (Some i)
        ∧ i ≤ 8
        ∧ [Some X; null; null; null; null; null; null; null; null] !! i = Some null).
Proof.
  apply (remote_selector_returns_empty_cell (Some "key"%string) (fixed_service "json")
           (fixed_parser (Finite (inject_Z 9)))
           [Some X; null; null; null; null; null; null; null; null] [0] 0).
  - reflexivity.
  - by exists 1.
  - split; [discriminate | reflexivity].
Defined.

(** X4: without an API key ([undefined] or the empty string)
    [getAIInstance] throws before any request is made: the selectors return
    the heuristic move and the commentary is the placeholder, and the
    service and [JSON.parse] have no part in the result. *)
Theorem missing_api_key_makes_no_request
    (API_KEY : option string) (generateContent : Service)
    (JSON_parse : string → Completion JSValue)
    (b : BoardState) (history : list nat) (r : Q) (aiMove : nat) :
  API_KEY = None ∨ API_KEY = Some ""%string →
  getHardAIMove API_KEY generateContent JSON_parse b history r = Return (getMediumAIMove b r) ∧
  getTrainedAIMove API_KEY generateContent JSON_parse b history r = Return (getMediumAIMove b r) ∧
  getAICommentary API_KEY generateContent b aiMove = Return "Thinking..."%string.
Proof. intros [-> | ->]; split_and!; reflexivity. Qed.

Lemma missing_api_key_makes_no_request_witness :
  getHardAIMove None offline_service failing_parser [null; Some X] [1] 0
    = Return (getMediumAIMove [null; Some X] 0) ∧
  getTrainedAIMove None offline_service failing_parser [null; Some X] [1] 0
    = Return (getMediumAIMove [null; Some X] 0) ∧
  getAICommentary None offline_service [null; Some X] 0 = Return "Thinking..."%string.
Proof.
  apply (missing_api_key_makes_no_request None offline_service failing_parser
           [null; Some X] [1] 0 0).
  by left.
Defined.

(** ** [aiMove]: the choice of the move and its application *)

Lemma getAICommentary_returns API_KEY generateContent b aiMove :
  ∃ text, getAICommentary API_KEY generateContent b aiMove = Return text.
Proof.
  unfold getAICommentary.
  destruct (generated_text API_KEY generateContent (commentary_request b aiMove))
    as [[text|]|message]; simpl; by eexists.
Qed.

(** X5: the Easy tier plays any empty cell and nothing else.  Its move is
    always an empty cell of the board it was given; with an empty cell and
    a random number of the range it has a move; and every empty cell is its
    move for some random number. *)
Theorem easy_tier_plays_any_empty_cell
    (API_KEY : option string) (JSON_parse : string → Completion JSValue)
    (task : Task) (service : Service) :
  taskDifficulty task = Easy →
  (∀ r i, select_move API_KEY JSON_parse task r service = Return (Some i) →
          currentBoard task !! i = Some null) ∧
  (∀ r, unit_interval r → (∃ j, currentBoard task !! j = Some null) →
        ∃ i, select_move API_KEY JSON_parse task r service = Return (Some i)) ∧
  (∀ i, currentBoard task !! i = Some null →
        ∃ r, unit_interval r ∧
             select_move API_KEY JSON_parse task r service = Return (Some i)).
Proof.
  intros Heasy. unfold select_move. rewrite Heasy. cbv zeta. split_and!.
  - intros r i [= Hpick]. unfold array_get_Z in Hpick.
    destruct (random_index r (length (availableCells (currentBoard task))) <? 0)%Z; [done|].
    apply list_elem_of_lookup_2 in Hpick. by apply elem_of_availableCells.
  - intros r Hr [j Hj]. apply elem_of_availableCells in Hj.
    assert (0 < length (availableCells (currentBoard task))) as Hlen.
    { destruct (availableCells (currentBoard task)); [by apply elem_of_nil in Hj | simpl; lia]. }
    destruct (random_pick _ r Hr Hlen) as (i & -> & _). by exists i.
  - intros i [k Hk]%elem_of_availableCells%list_elem_of_lookup.
    destruct (random_pick_any _ k i Hk) as (r & Hr & Hpick).
    exists r. split; [done|]. by rewrite Hpick.
Qed.

Lemma easy_tier_plays_any_empty_cell_witness :
  ∃ r, unit_interval r ∧
       select_move None failing_parser
         (mkTask [Some X; null; null; null; null; null; null; null; null] [0] Easy
            (mkScores 0 0 0)) r offline_service = Return (Some 7).
Proof.
  destruct (easy_tier_plays_any_empty_cell None failing_parser
              (mkTask [Some X; null; null; null; null; null; null; null; null] [0] Easy
                 (mkScores 0 0 0)) offline_service eq_refl) as (_ & _ & Hany).
  apply Hany. reflexivity.
Defined.

(** Every tier finds a move on a board of nine cells with an empty cell. *)
Lemma select_move_legal API_KEY JSON_parse task r service :
  well_formed (currentBoard task) →
  (∃ j, currentBoard task !! j = Some null) →
  unit_interval r →
  ∃ i, select_move API_KEY JSON_parse task r service = Return (Some i)
       ∧ currentBoard task !! i = Some null.
Proof.
  intros Hwf [j Hj] Hr. unfold select_move. cbv zeta.
  destruct (taskDifficulty task).
  - apply elem_of_availableCells in Hj.
    assert (0 < length (availableCells (currentBoard task))) as Hlen.
    { destruct (availableCells (currentBoard task)); [by apply elem_of_nil in Hj | simpl; lia]. }
    destruct (random_pick _ r Hr Hlen) as (i & -> & Hi).
    exists i. split; [done|]. by apply elem_of_availableCells.
  - destruct (getMediumAIMove_is_Some _ r j Hj Hr) as [i Hi].
    exists i. rewrite Hi. split; [done|]. by eapply getMediumAIMove_empty.
  - destruct (try_validate_or_fall_back (currentBoard task) r
                (suggested_move API_KEY service JSON_parse
                   (hard_request (currentBoard task) (currentMoveHistory task))))
      as (Hvalid & Hdiscard & [[i Hi]|Hd] & _).
    + exists i. split; [by apply Hvalid|]. by destruct Hi as (n & _ & _ & _ & ?).
    + destruct (getMediumAIMove_is_Some _ r j Hj Hr) as [i Hi].
      exists i. split; [unfold getHardAIMove; by rewrite Hdiscard, Hi|].
      by eapply getMediumAIMove_empty.
  - destruct (try_validate_or_fall_back (currentBoard task) r
                (suggested_move API_KEY service JSON_parse
                   (trained_request (currentBoard task) (currentMoveHistory task))))
      as (Hvalid & Hdiscard & [[i Hi]|Hd] & _).
    + exists i. split; [by apply Hvalid|]. by destruct Hi as (n & _ & _ & _ & ?).
    + destruct (getMediumAIMove_is_Some _ r j Hj Hr) as [i Hi].
      exists i. split; [unfold getTrainedAIMove; by rewrite Hdiscard, Hi|].
      by eapply getMediumAIMove_empty.
Qed.

(** X6: a resumed [aiMove] always moves.  Started on a board of nine cells
    with an empty cell, on every tier and whatever the service does, it
    writes its board with an O on one of the cells that were empty on it,
    appends that cell to the move history, hands the turn to the human and
    clears [isAiThinking]. *)
Theorem aiMove_always_moves
    (API_KEY : option string) (JSON_parse : string → Completion JSValue)
    (task : Task) (r : Q) (service : Service) (st : AppState) :
  well_formed (currentBoard task) →
  (∃ j, currentBoard task !! j = Some null) →
  unit_interval r →
  ∃ i, i ≤ 8 ∧ currentBoard task !! i = Some null ∧
       board (aiMove_resume API_KEY JSON_parse task r service st)
         = array_set (currentBoard task) i (Some O) ∧
       moveHistory (aiMove_resume API_KEY JSON_parse task r service st)
         = moveHistory st ++ [i] ∧
       isPlayerTurn (aiMove_resume API_KEY JSON_parse task r service st) = true ∧
       isAiThinking (aiMove_resume API_KEY JSON_parse task r service st) = false.
Proof.
  intros Hwf Hempty Hr.
  destruct (select_move_legal API_KEY JSON_parse task r service Hwf Hempty Hr)
    as (i & Hmove & Hi).
  exists i. split; [apply lookup_lt_Some in Hi; unfold well_formed in Hwf; lia|].
  split; [done|].
  unfold aiMove_resume. rewrite Hmove, bool_decide_eq_true_2 by done.
  assert (∃ text,
            (if bool_decide (taskDifficulty task = Hard) || bool_decide (taskDifficulty task = Trained)
             then getAICommentary API_KEY service (array_set (currentBoard task) i (Some O)) i
             else Return ""%string) = Return text) as [text ->].
  { destruct (bool_decide (taskDifficulty task = Hard) || bool_decide (taskDifficulty task = Trained));
      [apply getAICommentary_returns | by eexists]. }
  simpl.
  match goal with |- context [checkGameStatus ?b ?s ?st'] =>
    destruct (checkGameStatus_frame b s st') as (-> & -> & _) end.
  done.
Qed.

Lemma aiMove_always_moves_witness :
  ∃ i, i ≤ 8 ∧
       [Some X; null; null; null; null; null; null; null; null] !! i = Some null ∧
       board (aiMove_resume None failing_parser
                (mkTask [Some X; null; null; null; null; null; null; null; null] [0] Hard
                   (mkScores 0 0 0)) 0 offline_service (app freshSystem))
         = array_set [Some X; null; null; null; null; null; null; null; null] i (Some O) ∧
       moveHistory (aiMove_resume None failing_parser
                (mkTask [Some X; null; null; null; null; null; null; null; null] [0] Hard
                   (mkScores 0 0 0)) 0 offline_service (app freshSystem))
         = moveHistory (app freshSystem) ++ [i] ∧
       isPlayerTurn (aiMove_resume None failing_parser
                (mkTask [Some X; null; null; null; null; null; null; null; null] [0] Hard
                   (mkScores 0 0 0)) 0 offline_service (app freshSystem)) = true ∧
       isAiThinking (aiMove_resume None failing_parser
                (mkTask [Some X; null; null; null; null; null; null; null; null] [0] Hard
                   (mkScores 0 0 0)) 0 offline_service (app freshSystem)) = false.
Proof.
  apply (aiMove_always_moves None failing_parser
           (mkTask [Some X; null; null; null; null; null; null; null; null] [0] Hard
              (mkScores 0 0 0)) 0 offline_service (app freshSystem)).
  - reflexivity.
  - by exists 1.
  - split; [discriminate | reflexivity].
Defined.

(** X7: on the Easy and Medium tiers [aiMove] consults neither the service
    nor the credentials nor [JSON.parse]: its result is the same whatever
    they are (no move request, no commentary request). *)
Theorem local_tiers_make_no_request
    (API_KEY API_KEY' : option string)
    (JSON_parse JSON_parse' : string → Completion JSValue)
    (task : Task) (r : Q) (service service' : Service) (st : AppState) :
  taskDifficulty task = Easy ∨ taskDifficulty task = Medium →
  aiMove_resume API_KEY JSON_parse task r service st =
  aiMove_resume API_KEY' JSON_parse' task r service' st.
Proof.
  intros [Htier|Htier]; unfold aiMove_resume, select_move; by rewrite Htier.
Qed.

Lemma local_tiers_make_no_request_witness :
  aiMove_resume None failing_parser
    (mkTask [Some X; null; null; null; null; null; null; null; null] [0] Medium (mkScores 0 0 0))
    0 offline_service (app freshSystem) =
  aiMove_resume (Some "key"%string) (fixed_parser (Finite 1))
    (mkTask [Some X; null; null; null; null; null; null; null; null] [0] Medium (mkScores 0 0 0))
    0 (fixed_service "json") (app freshSystem).
Proof.
  apply (local_tiers_make_no_request None (Some "key"%string) failing_parser
           (fixed_parser (Finite 1))
           (mkTask [Some X; null; null; null; null; null; null; null; null] [0] Medium
              (mkScores 0 0 0)) 0 offline_service (fixed_service "json") (app freshSystem)).
  by right.
Defined.

(** ** The orchestrator: transitions and invariants *)

Lemma no_available_cells b :
  length (availableCells b) = 0 ↔ ∀ j, b !! j ≠ Some null.
Proof.
  split.
  - intros Hlen j Hj. apply elem_of_availableCells in Hj.
    destruct (availableCells b); [by apply elem_of_nil in Hj | done].
  - intros Hno. destruct (availableCells b) as [|j rest] eqn:E; [done|].
    assert (j ∈ availableCells b) as Hj by (rewrite E; left).
    apply elem_of_availableCells in Hj. by destruct (Hno j).
Qed.

(** What the effect does: nothing; or, out of the human's turn in a game in
    progress, a call of [aiMove], which is suspended when the board has an
    empty cell and returns at once when it has none. *)
Lemma effect_cases prev next pending :
  effect prev next pending = mkSystem next pending ∨
  isPlayerTurn next = false ∧ outcome next = InProgress ∧
  ((∀ j, board next !! j ≠ Some null) ∧
   effect prev next pending =
     mkSystem (setIsAiThinking false
                 (setAiCommentary "Hmm, let me think..." (setIsAiThinking true next))) pending
   ∨ (∃ j, board next !! j = Some null) ∧
     effect prev next pending =
       mkSystem (setAiCommentary "Hmm, let me think..." (setIsAiThinking true next))
         (pending ++ [mkTask (board next) (moveHistory next) (difficulty next) (scores next)])).
Proof.
  unfold effect.
  destruct (bool_decide (effect_deps prev ≠ effect_deps next)); simpl; [|by left].
  destruct (isPlayerTurn next) eqn:Hturn; simpl; [by left|].
  case_bool_decide as Hwin; simpl; [|by left].
  destruct (isDraw next) eqn:Hdraw; simpl; [by left|].
  right. split; [done|]. split; [by apply outcome_in_progress|].
  unfold aiMove_start. case_bool_decide as Hlen; simpl.
  - left. split; [by apply no_available_cells|]. by rewrite app_nil_r.
  - right. split; [|done].
    destruct (availableCells (board next)) as [|j rest] eqn:E; [done|].
    exists j. apply elem_of_availableCells. rewrite E. left.
Qed.

Lemma effect_fires prev next pending :
  effect_deps prev ≠ effect_deps next →
  isPlayerTurn next = false → outcome next = InProgress →
  (∃ j, board next !! j = Some null) →
  effect prev next pending =
    mkSystem (setAiCommentary "Hmm, let me think..." (setIsAiThinking true next))
      (pending ++ [mkTask (board next) (moveHistory next) (difficulty next) (scores next)]).
Proof.
  intros Hdeps Hturn [Hwin Hdraw]%outcome_in_progress [j Hj]. unfold effect.
  rewrite bool_decide_eq_true_2 by done. rewrite Hturn, Hdraw.
  rewrite bool_decide_eq_true_2 by done. simpl.
  unfold aiMove_start. rewrite bool_decide_eq_false_2; [done|].
  intros Hlen. by apply (proj1 (no_available_cells _) Hlen j).
Qed.

Lemma effect_finished prev next pending :
  outcome next ≠ InProgress → effect prev next pending = mkSystem next pending.
Proof.
  intros Hout. destruct (effect_cases prev next pending) as [?|(_ & ? & _)]; done.
Qed.

(** How a resumed [aiMove] ends, with the state it leaves. *)
Lemma aiMove_resume_explicit API_KEY JSON_parse task r service st :
  aiMove_resume API_KEY JSON_parse task r service st = st ∨
  aiMove_resume API_KEY JSON_parse task r service st = setIsAiThinking false st ∨
  ∃ i text,
    currentBoard task !! i = Some null ∧
    aiMove_resume API_KEY JSON_parse task r service st =
      setIsAiThinking false
        (setIsPlayerTurn true
           (checkGameStatus (array_set (currentBoard task) i (Some O)) (taskScores task)
              (setMoveHistory (moveHistory st ++ [i])
                 (setBoard (array_set (currentBoard task) i (Some O))
                    (setAiCommentary text st))))).
Proof.
  unfold aiMove_resume.
  destruct (select_move API_KEY JSON_parse task r service) as [[i|]|];
    [| by right; left | by left].
  case_bool_decide as Hempty; [|by right; left].
  match goal with |- context [match ?c with Return _ => _ | Throw _ => _ end] =>
    destruct c as [text|] end; [|by left].
  right; right. by exists i, text.
Qed.

Lemma checkGameStatus_outcome b s st :
  outcome st = InProgress → outcome (checkGameStatus b s st) = outcome_of_board b.
Proof.
  intros [Hwin Hdraw]%outcome_in_progress.
  unfold checkGameStatus, outcome_of_board, outcome.
  destruct (checkWinner b); [done|].
  destruct (board_full b); simpl; by rewrite ?Hwin, ?Hdraw.
Qed.

Lemma checkGameStatus_scores b s st :
  scores (checkGameStatus b s st) =
    match outcome_of_board b with
    | InProgress => scores st
    | o => award o s
    end.
Proof.
  unfold checkGameStatus, outcome_of_board.
  destruct (checkWinner b) as [[[] l]|]; [done | done |].
  by destruct (board_full b).
Qed.

Lemma handleCellClick_explicit st index :
  ¬ illegal_click st index →
  outcome st = InProgress ∧
  handleCellClick index st =
    checkGameStatus (array_set (board st) index (Some X)) (scores st)
      (setIsPlayerTurn false
         (setMoveHistory (moveHistory st ++ [index])
            (setBoard (array_set (board st) index (Some X)) st))).
Proof.
  intros Hlegal. split.
  - destruct (outcome st) eqn:E; [done | |]; destruct Hlegal; right; right; by rewrite E.
  - unfold handleCellClick.
    destruct (occupied (board st) index || bool_decide (winnerInfo st ≠ None) || isDraw st
              || negb (isPlayerTurn st)) eqn:Hguard; [|done].
    by apply handleCellClick_guard in Hguard.
Qed.

Lemma set_empty_cell_length b i v : length (array_set b i v) = length b.
Proof. unfold array_set. apply length_insert. Qed.

Lemma not_full_has_empty b : board_full b = false → ∃ j, b !! j = Some null.
Proof.
  intros Hfull.
  destruct (decide (Exists (λ cell, cell = null) b)) as [Hex|Hno].
  - apply Exists_exists in Hex as (cell & Hin & ->).
    by apply list_elem_of_lookup in Hin.
  - assert (board_full b = true) as Htrue; [|congruence].
    apply board_full_true. intros i cell Hi ->. apply Hno.
    apply Exists_exists. exists None. split; [|done]. by eapply list_elem_of_lookup_2.
Qed.

Lemma in_progress_has_empty b : outcome_of_board b = InProgress → ∃ j, b !! j = Some null.
Proof.
  unfold outcome_of_board. destruct (checkWinner b); [done|].
  destruct (board_full b) eqn:Hfull; [done|]. intros _. by apply not_full_has_empty.
Qed.

Lemma in_progress_or_finished (o : GameOutcome) : o = InProgress ∨ o ≠ InProgress.
Proof. destruct o; [by left | by right | by right]. Qed.

Section Game.

Variable API_KEY : option string.
Variable JSON_parse : string → Completion JSValue.

#[local] Abbreviation dispatch := (dispatch API_KEY JSON_parse).
#[local] Abbreviation reachable := (reachable API_KEY JSON_parse).
#[local] Abbreviation aiMove_resume := (aiMove_resume API_KEY JSON_parse).

(** X8: a legal click (an empty cell, the human's turn, a game in
    progress).  The handler writes X on the cell, appends the cell to the
    move history, ends the human's turn and shows what the evaluator says of
    the new board.  If that is a game still in progress, the effect starts
    exactly one [aiMove], on the new board and history, and sets
    [isAiThinking]; if the move ends the game, no [aiMove] starts and the
    point of the game is added to the scores. *)
Theorem legal_click_hands_over_to_the_ai (sys : System) (index : nat) :
  ¬ illegal_click (app sys) index →
  index < length (board (app sys)) →
  let sys' := dispatch (Click index) sys in
  let newBoard := array_set (board (app sys)) index (Some X) in
  board (app sys) !! index = Some null ∧
  board (app sys') = newBoard ∧
  moveHistory (app sys') = moveHistory (app sys) ++ [index] ∧
  isPlayerTurn (app sys') = false ∧
  outcome (app sys') = outcome_of_board newBoard ∧
  (outcome_of_board newBoard = InProgress →
     isAiThinking (app sys') = true ∧
     scores (app sys') = scores (app sys) ∧
     tasks sys' = tasks sys ++ [mkTask newBoard (moveHistory (app sys) ++ [index])
                                  (difficulty (app sys)) (scores (app sys))]) ∧
  (outcome_of_board newBoard ≠ InProgress →
     isAiThinking (app sys') = isAiThinking (app sys) ∧
     scores (app sys') = award (outcome_of_board newBoard) (scores (app sys)) ∧
     tasks sys' = tasks sys).
Proof.
  intros Hlegal Hindex. cbv zeta. destruct sys as [st pending]. simpl in *.
  rewrite bool_decide_eq_true_2 by done.
  destruct (handleCellClick_legal st index Hlegal Hindex) as (Hempty & Hturn & Hb & Hh & Ht).
  destruct (handleCellClick_explicit st index Hlegal) as [Hprogress Hclick].
  set (next := handleCellClick index st) in *.
  assert (outcome next = outcome_of_board (array_set (board st) index (Some X))) as Hout.
  { subst next. rewrite Hclick. by apply checkGameStatus_outcome. }
  assert (scores next = match outcome_of_board (array_set (board st) index (Some X)) with
                        | InProgress => scores st
                        | o => award o (scores st)
                        end) as Hscores.
  { subst next. rewrite Hclick. by rewrite checkGameStatus_scores. }
  assert (difficulty next = difficulty st ∧ isAiThinking next = isAiThinking st)
    as [Hdiff Hthink].
  { subst next. rewrite Hclick.
    match goal with |- context [checkGameStatus ?b ?s ?st'] =>
      destruct (checkGameStatus_frame b s st') as (_ & _ & _ & -> & ->) end. done. }
  split; [done|].
  destruct (in_progress_or_finished (outcome_of_board (array_set (board st) index (Some X))))
    as [Hgo|Hend].
  - assert (effect_deps st ≠ effect_deps next) as Hdeps.
    { unfold effect_deps. rewrite Hturn, Ht. congruence. }
    assert (∃ j, board next !! j = Some null) as Hcell.
    { rewrite Hb. by apply in_progress_has_empty. }
    rewrite (effect_fires st next pending Hdeps Ht) by (done || by rewrite Hout).
    simpl. rewrite Hb, Hh, Hdiff, Hscores, Hgo. unfold outcome. simpl.
    fold (outcome next). rewrite Hout, Hgo.
    by split_and!.
  - rewrite effect_finished by (by rewrite Hout). simpl.
    rewrite Hb, Hh, Ht, Hout, Hthink. split_and!; [done.. | |].
    + intros Hgo. by destruct Hend.
    + intros _. split_and!; [done | | done]. rewrite Hscores.
      by destruct (outcome_of_board (array_set (board st) index (Some X))).
Qed.

Lemma effect_nine_cells prev next pending :
  nine_cells (mkSystem next pending) → nine_cells (effect prev next pending).
Proof.
  intros (Hlen & Hhist & Htasks).
  destruct (effect_cases prev next pending)
    as [Heff|(_ & _ & [[_ Heff]|[Hcell Heff]])]; rewrite Heff; [done | done |].
  split_and!; [done | done |]. simpl in *.
  intros task [Hin | ->%list_elem_of_singleton]%elem_of_app; [by apply Htasks | done].
Qed.

(** X9: the shape of the data, in every reachable state and whatever the
    suspended [aiMove] calls and the restarts do to each other: the board has
    nine cells, the move history holds cell indices below 9, and the board
    of every suspended [aiMove] has nine cells, one of them empty. *)
Theorem reachable_states_have_nine_cells (sys : System) :
  reachable sys → nine_cells sys.
Proof.
  revert sys. apply reachable_ind.
  { intros d s g dark. split_and!; [done | | ].
    - intros i Hi. by apply elem_of_nil in Hi.
    - intros task Hin. by apply elem_of_nil in Hin. }
  intros [st pending] e _ (Hlen & Hhist & Htasks). simpl in *.
  destruct e; simpl.
  - case_bool_decide as Hindex; [|done]. apply effect_nine_cells.
    destruct (handleCellClick_cases st index) as [[_ ->]|[Hlegal _]]; [done|].
    destruct (handleCellClick_legal st index Hlegal Hindex) as (_ & _ & Hb & Hh & _).
    split_and!; simpl; rewrite ?Hb, ?Hh; [by rewrite set_empty_cell_length | | done].
    intros i [Hi| ->%list_elem_of_singleton]%elem_of_app; [by apply Hhist | lia].
  - apply effect_nine_cells. split_and!; simpl; [done | | done].
    intros i Hi. by apply elem_of_nil in Hi.
  - apply effect_nine_cells. split_and!; simpl; [done | | done].
    intros i Hi. by apply elem_of_nil in Hi.
  - done.
  - done.
  - done.
  - destruct (pending !! k) as [task|] eqn:Hk; [|done].
    apply effect_nine_cells.
    assert (∀ task', task' ∈ delete k pending →
              length (currentBoard task') = 9 ∧ ∃ j, currentBoard task' !! j = Some null)
      as Hrest.
    { intros task' Hin. apply Htasks. eapply elem_of_sublist; [done | apply sublist_delete]. }
    destruct (Htasks task) as [Hcb _]; [by eapply list_elem_of_lookup_2|].
    destruct (aiMove_resume_explicit API_KEY JSON_parse task r service st)
      as [->|[->|(i & text & Hi & ->)]]; [done | done |].
    split_and!; simpl; [| | done].
    + match goal with |- context [checkGameStatus ?b ?s ?st'] =>
        destruct (checkGameStatus_frame b s st') as (-> & _) end.
      simpl. by rewrite set_empty_cell_length.
    + match goal with |- context [checkGameStatus ?b ?s ?st'] =>
        destruct (checkGameStatus_frame b s st') as (_ & -> & _) end.
      simpl. intros i' [Hi'| ->%list_elem_of_singleton]%elem_of_app; [by apply Hhist|].
      apply lookup_lt_Some in Hi. lia.
Qed.

End Game.

Lemma legal_click_hands_over_to_the_ai_witness :
  let sys := freshSystem in
  let sys' := dispatch None failing_parser (Click 0) sys in
  let newBoard := array_set (board (app sys)) 0 (Some X) in
  board (app sys) !! 0 = Some null ∧
  board (app sys') = newBoard ∧
  moveHistory (app sys') = moveHistory (app sys) ++ [0] ∧
  isPlayerTurn (app sys') = false ∧
  outcome (app sys') = outcome_of_board newBoard ∧
  (outcome_of_board newBoard = InProgress →
     isAiThinking (app sys') = true ∧
     scores (app sys') = scores (app sys) ∧
     tasks sys' = tasks sys ++ [mkTask newBoard (moveHistory (app sys) ++ [0])
                                  (difficulty (app sys)) (scores (app sys))]) ∧
  (outcome_of_board newBoard ≠ InProgress →
     isAiThinking (app sys') = isAiThinking (app sys) ∧
     scores (app sys') = award (outcome_of_board newBoard) (scores (app sys)) ∧
     tasks sys' = tasks sys).
Proof.
  apply (legal_click_hands_over_to_the_ai None failing_parser freshSystem 0).
  - intros [Hocc|[Hturn|Hout]]; [discriminate | discriminate | by apply Hout].
  - simpl. lia.
Defined.

Lemma reachable_states_have_nine_cells_witness :
  nine_cells (run None failing_parser
                [Click 0; ClickRestart; AiResumes 0 0 offline_service] freshSystem).
Proof.
  apply (reachable_states_have_nine_cells None failing_parser).
  exists Medium, (mkScores 0 0 0), 0, false,
    [Click 0; ClickRestart; AiResumes 0 0 offline_service].
  reflexivity.
Defined.

(** ** Games that are restarted only between the turns of the AI *)

Lemma same_game st st' pending :
  settled (mkSystem st pending) →
  board st' = board st → moveHistory st' = moveHistory st →
  outcome st' = outcome st → scores st' = scores st →
  difficulty st' = difficulty st → isPlayerTurn st' = isPlayerTurn st →
  settled (mkSystem st' pending) ∧
  scores_follow st st' ∧
  (outcome st ≠ InProgress → game_frozen (mkSystem st pending) (mkSystem st' pending)).
Proof.
  intros [Hout Hwait] Hb Hh Ho Hs Hd Ht. simpl in *. split_and!.
  - split; simpl; [by rewrite Ho, Hb|].
    intros task Hin. rewrite Ho, Hs, Hd, Hh. by apply Hwait.
  - split; [|done]. intros Hprogress Hend. congruence.
  - intros Hend. split_and!; try done. simpl.
    destruct pending as [|task rest]; [done|].
    destruct (Hwait task) as [Hprogress _]; [left | done].
Qed.

(** The effect keeps a settled state settled and leaves the game as the
    event made it. *)
Lemma effect_settled prev next pending :
  settled (mkSystem next pending) →
  settled (effect prev next pending) ∧
  board (app (effect prev next pending)) = board next ∧
  moveHistory (app (effect prev next pending)) = moveHistory next ∧
  outcome (app (effect prev next pending)) = outcome next ∧
  scores (app (effect prev next pending)) = scores next ∧
  isPlayerTurn (app (effect prev next pending)) = isPlayerTurn next ∧
  (outcome next ≠ InProgress → tasks (effect prev next pending) = pending).
Proof.
  intros [Hout Hwait]. simpl in *.
  destruct (effect_cases prev next pending)
    as [Heff|(_ & Hprogress & [[_ Heff]|[_ Heff]])]; rewrite Heff; simpl.
  - by split_and!.
  - by split_and!.
  - split_and!; [| done.. |].
    + split; [done|]. simpl.
      intros task [Hin | ->%list_elem_of_singleton]%elem_of_app; [by apply Hwait | done].
    + by intros Hend.
Qed.

Section Calm.

Variable API_KEY : option string.
Variable JSON_parse : string → Completion JSValue.

#[local] Abbreviation dispatch := (dispatch API_KEY JSON_parse).
#[local] Abbreviation aiMove_resume := (aiMove_resume API_KEY JSON_parse).
#[local] Abbreviation calmly_reachable := (calmly_reachable API_KEY JSON_parse).

(** One calm event from a settled state. *)
Lemma calm_step_settled sys e :
  history_consistent (app sys) → tasks_current sys → settled sys → calm e sys →
  settled (dispatch e sys) ∧
  scores_follow (app sys) (app (dispatch e sys)) ∧
  (outcome (app sys) ≠ InProgress → ¬ restarts e → game_frozen sys (dispatch e sys)).
Proof.
  destruct sys as [st pending]. simpl. intros Hcons Htasks Hsettled Hcalm.
  pose proof (same_game st st pending Hsettled eq_refl eq_refl eq_refl eq_refl eq_refl eq_refl)
    as Hsame.
  assert (∀ P : Prop, (settled (mkSystem st pending) ∧ scores_follow st st ∧
            (outcome st ≠ InProgress → game_frozen (mkSystem st pending) (mkSystem st pending))) →
          settled (mkSystem st pending) ∧ scores_follow st st ∧
            (outcome st ≠ InProgress → P → game_frozen (mkSystem st pending) (mkSystem st pending)))
    as Hweaken by (intros P (? & ? & ?); split_and!; auto).
  destruct e; simpl in *.
  - (* Click *)
    case_bool_decide as Hindex; [|by apply Hweaken].
    destruct (handleCellClick_cases st index) as [[_ ->]|[Hlegal _]].
    { rewrite effect_same. by apply Hweaken. }
    destruct (handleCellClick_explicit st index Hlegal) as [Hprogress Hclick].
    destruct (handleCellClick_legal st index Hlegal Hindex) as (_ & Hturn & Hb & Hh & Ht).
    assert (pending = []) as ->.
    { destruct pending as [|task ?]; [done|].
      destruct (Htasks task) as (_ & _ & Hfalse); [left | simpl in Hfalse; congruence]. }
    set (next := handleCellClick index st) in *.
    assert (outcome next = outcome_of_board (board next)) as Hout.
    { rewrite Hb. subst next. rewrite Hclick. by apply checkGameStatus_outcome. }
    assert (scores next = match outcome next with
                          | InProgress => scores st
                          | o => award o (scores st)
                          end) as Hscores.
    { rewrite Hout, Hb. subst next. rewrite Hclick. by rewrite checkGameStatus_scores. }
    destruct (effect_settled st next []) as (Hs' & _ & _ & Ho' & Hsc' & _).
    { split; [done|]. intros task Hin. by apply elem_of_nil in Hin. }
    split_and!; [done | | done].
    unfold scores_follow. rewrite Ho', Hsc', Hscores. split.
    + intros _ Hend. by destruct (outcome next).
    + intros [Hend | ->]; done.
  - (* ClickRestart *)
    subst pending. rewrite effect_player_turn by done. simpl. split_and!; [| |done].
    + split; [done|]. intros task Hin. by apply elem_of_nil in Hin.
    + split; [by intros _ Hend | done].
  - (* SelectDifficulty *)
    subst pending. rewrite effect_player_turn by done. simpl. split_and!; [| |done].
    + split; [done|]. intros task Hin. by apply elem_of_nil in Hin.
    + split; [by intros _ Hend | done].
  - destruct (same_game st (setIsDifficultyModalOpen true st) pending Hsettled
                eq_refl eq_refl eq_refl eq_refl eq_refl eq_refl) as (? & ? & ?).
    split_and!; auto.
  - destruct (same_game st (setIsDifficultyModalOpen false st) pending Hsettled
                eq_refl eq_refl eq_refl eq_refl eq_refl eq_refl) as (? & ? & ?).
    split_and!; auto.
  - destruct (same_game st (setIsDarkMode (negb (isDarkMode st)) st) pending Hsettled
                eq_refl eq_refl eq_refl eq_refl eq_refl eq_refl) as (? & ? & ?).
    split_and!; auto.
  - (* AiResumes *)
    destruct (pending !! k) as [task|] eqn:Hk; [|by apply Hweaken].
    destruct (Htasks task) as (Hone & Hboard & Hturn); [by eapply list_elem_of_lookup_2|].
    simpl in Hone, Hboard, Hturn. subst pending.
    assert (k = 0) as -> by (apply lookup_lt_Some in Hk; simpl in Hk; lia).
    simpl.
    destruct Hsettled as [Hout Hwait]. simpl in Hout, Hwait.
    destruct (Hwait task) as (Hprogress & Hts & _); [left|].
    assert (settled (mkSystem st [])) as Hnone.
    { split; [done|]. intros task' Hin. by apply elem_of_nil in Hin. }
    destruct (aiMove_resume_explicit API_KEY JSON_parse task r service st)
      as [->|[->|(i & text & Hi & ->)]].
    + rewrite effect_same.
      destruct (same_game st st [] Hnone eq_refl eq_refl eq_refl eq_refl eq_refl eq_refl)
        as (? & ? & _).
      split_and!; [done | done |]. by intros Hend.
    + rewrite effect_deps_same by done.
      destruct (same_game st (setIsAiThinking false st) [] Hnone
                  eq_refl eq_refl eq_refl eq_refl eq_refl eq_refl) as (? & ? & _).
      split_and!; [done | done |]. by intros Hend.
    + rewrite effect_player_turn by done. simpl.
      set (newBoard := array_set (currentBoard task) i (Some O)).
      set (inner := setMoveHistory (moveHistory st ++ [i])
                      (setBoard newBoard (setAiCommentary text st))).
      assert (outcome (checkGameStatus newBoard (taskScores task) inner)
              = outcome_of_board newBoard) as Hnew by (by apply checkGameStatus_outcome).
      pose proof (checkGameStatus_scores newBoard (taskScores task) inner) as Hscores.
      destruct (checkGameStatus_frame newBoard (taskScores task) inner) as (Hb & _).
      split_and!; [| |done].
      * split; simpl; [|intros task' Hin; by apply elem_of_nil in Hin].
        unfold outcome in *. simpl. by rewrite Hb.
      * unfold scores_follow, outcome in *. simpl. rewrite Hscores, Hnew, Hts. split.
        -- intros _ Hend. by destruct (outcome_of_board newBoard).
        -- intros [Hend | ->]; done.
Qed.

Lemma calm_runs_settled sys :
  calmly_reachable sys →
  history_consistent (app sys) ∧ tasks_current sys ∧ settled sys.
Proof.
  induction 1 as [d s g dark|sys e Hreach (IHc & IHt & IHs) Hcalm].
  - split_and!; [apply initial_consistent | apply tasks_current_none |].
    split; [done|]. intros task Hin. by apply elem_of_nil in Hin.
  - destruct (calm_dispatch API_KEY JSON_parse sys e IHc IHt Hcalm) as (? & ? & _).
    destruct (calm_step_settled sys e IHc IHt IHs Hcalm) as (? & _). done.
Qed.

End Calm.

Lemma count_marked_lt b i : b !! i = Some null → count_marked b < length b.
Proof.
  unfold count_marked. revert i.
  induction b as [|cell b IH]; intros [|i]; simpl; try done.
  - intros [= ->]. rewrite filter_cons.
    destruct (decide (null ≠ null)) as [Hne|_]; [by destruct Hne|].
    pose proof (length_filter (λ c : Cell, c ≠ null) b). lia.
  - intros Hi%IH. rewrite filter_cons. destruct (decide (cell ≠ null)); simpl; lia.
Qed.

Lemma count_marked_full b :
  count_marked b = length b → outcome_of_board b ≠ InProgress.
Proof.
  intros Hcount.
  assert (board_full b = true) as Hfull.
  { apply board_full_true. intros i cell Hi ->. apply count_marked_lt in Hi. lia. }
  unfold outcome_of_board. destruct (checkWinner b); [done|]. by rewrite Hfull.
Qed.

Lemma calm_wonGame : calmly_reachable None failing_parser wonGame.
Proof. unfold wonGame. repeat (apply calm_step; [|exact I]). apply calm_initial. Qed.

(** X10: in a game that is restarted only while no [aiMove] is suspended,
    the state always shows what the evaluator says of the board on the
    screen: [winnerInfo] is the result of the scan of that board, and the
    outcome (win, draw, in progress) is the outcome of that board. *)
Theorem shown_outcome_is_the_boards
    (API_KEY : option string) (JSON_parse : string → Completion JSValue) (sys : System) :
  calmly_reachable API_KEY JSON_parse sys →
  outcome (app sys) = outcome_of_board (board (app sys)) ∧
  winnerInfo (app sys) = checkWinner (board (app sys)).
Proof.
  intros (_ & _ & [Hout _])%calm_runs_settled. split; [done|].
  unfold outcome, outcome_of_board in Hout.
  destruct (winnerInfo (app sys)) as [[m l]|], (checkWinner (board (app sys))) as [[m' l']|];
    simpl in Hout.
  - by injection Hout as -> ->.
  - by destruct (board_full (board (app sys))).
  - by destruct (isDraw (app sys)).
  - done.
Qed.

Lemma shown_outcome_is_the_boards_witness :
  outcome (app wonGame) = outcome_of_board (board (app wonGame)) ∧
  winnerInfo (app wonGame) = checkWinner (board (app wonGame)).
Proof.
  apply (shown_outcome_is_the_boards None failing_parser wonGame). apply calm_wonGame.
Defined.

(** X11: a finished game stays as it is until it is restarted.  In a game
    that is restarted only while no [aiMove] is suspended, once the state
    shows a win or a draw, no event but a restart (or the choice of a
    difficulty, which restarts) changes the board, the move history, the
    outcome, the scores or the turn, and no [aiMove] is suspended. *)
Theorem finished_game_is_frozen
    (API_KEY : option string) (JSON_parse : string → Completion JSValue)
    (sys : System) (e : Event) :
  calmly_reachable API_KEY JSON_parse sys →
  outcome (app sys) ≠ InProgress →
  ¬ restarts e →
  game_frozen sys (dispatch API_KEY JSON_parse e sys).
Proof.
  intros (Hc & Ht & Hs)%calm_runs_settled Hend Hevent.
  assert (calm e sys) as Hcalm by (by destruct e).
  by destruct (calm_step_settled API_KEY JSON_parse sys e Hc Ht Hs Hcalm) as (_ & _ & Hfrozen);
    apply Hfrozen.
Qed.

Lemma finished_game_is_frozen_witness :
  game_frozen wonGame (dispatch None failing_parser (Click 4) wonGame).
Proof.
  apply (finished_game_is_frozen None failing_parser wonGame (Click 4)).
  - apply calm_wonGame.
  - vm_compute. discriminate.
  - intros [].
Defined.

(** X12: one point for each finished game.  In a game that is restarted
    only while no [aiMove] is suspended, an event that ends a game in
    progress adds one to the counter of its outcome (the human's wins for X,
    the AI's for O, the draws), and every other event leaves the scores as
    they are. *)
Theorem one_point_per_finished_game
    (API_KEY : option string) (JSON_parse : string → Completion JSValue)
    (sys : System) (e : Event) :
  calmly_reachable API_KEY JSON_parse sys →
  calm e sys →
  scores_follow (app sys) (app (dispatch API_KEY JSON_parse e sys)).
Proof.
  intros (Hc & Ht & Hs)%calm_runs_settled Hcalm.
  by destruct (calm_step_settled API_KEY JSON_parse sys e Hc Ht Hs Hcalm) as (_ & Hscores & _).
Qed.

Lemma one_point_per_finished_game_witness :
  scores (app wonGame) = mkScores 1 0 0 ∧
  scores_follow (app wonGame) (app (dispatch None failing_parser ClickRestart wonGame)).
Proof.
  split; [reflexivity|].
  apply (one_point_per_finished_game None failing_parser wonGame ClickRestart).
  - apply calm_wonGame.
  - reflexivity.
Defined.

(** X13: a game has at most nine moves.  In a game that is restarted only
    while no [aiMove] is suspended, the move history never holds more than
    nine moves, and with nine moves the game is finished. *)
Theorem game_has_at_most_nine_moves
    (API_KEY : option string) (JSON_parse : string → Completion JSValue) (sys : System) :
  calmly_reachable API_KEY JSON_parse sys →
  length (moveHistory (app sys)) ≤ 9 ∧
  (length (moveHistory (app sys)) = 9 → outcome (app sys) ≠ InProgress).
Proof.
  intros ([Hlen Hcount _ _ _] & _ & [Hout _])%calm_runs_settled.
  rewrite Hcount, Hout. split.
  - rewrite <- Hlen. apply length_filter.
  - intros Hnine. apply count_marked_full. lia.
Qed.

Lemma game_has_at_most_nine_moves_witness :
  length (moveHistory (app wonGame)) ≤ 9 ∧
  (length (moveHistory (app wonGame)) = 9 → outcome (app wonGame) ≠ InProgress).
Proof.
  apply (game_has_at_most_nine_moves None failing_parser wonGame). apply calm_wonGame.
Defined.

(** ** The retriever and the prompt of the Trained tier *)

Lemma all_matches_elem corpus history seq :
  seq ∈ all_matches corpus history ↔
  history `prefix_of` trainingData.moves seq ∧ seq ∈ corpus.
Proof. unfold all_matches. by rewrite list_elem_of_filter. Qed.

Lemma all_matches_no_history corpus : all_matches corpus [] = corpus.
Proof.
  unfold all_matches. induction corpus as [|seq corpus IH]; [done|].
  rewrite filter_cons_True by apply prefix_nil. by rewrite IH.
Qed.

Lemma relevantSequences_nil corpus history :
  relevantSequences corpus history = [] ↔ all_matches corpus history = [].
Proof.
  rewrite relevantSequences_all_matches. split; [|by intros ->].
  intros [?|?]%take_nil_inv; done.
Qed.

(** X14: how the retrieved entries depend on the move history.  With no
    move played the retriever returns the first three entries of the corpus.
    A longer history narrows the choice: the entries retrieved for a history
    match every history that it extends, and once no entry matches a
    history none matches a longer one.  A history longer than every entry
    retrieves nothing. *)
Theorem retriever_narrows_with_the_history (corpus : list trainingData.GameSequence) :
  relevantSequences corpus [] = take 3 corpus ∧
  (∀ shorter longer, shorter `prefix_of` longer →
     (∀ seq, seq ∈ relevantSequences corpus longer → seq ∈ all_matches corpus shorter) ∧
     (relevantSequences corpus shorter = [] → relevantSequences corpus longer = [])) ∧
  (∀ history,
     (∀ seq, seq ∈ corpus → length (trainingData.moves seq) < length history) →
     relevantSequences corpus history = []).
Proof.
  assert (∀ shorter longer seq, shorter `prefix_of` longer →
            seq ∈ all_matches corpus longer → seq ∈ all_matches corpus shorter) as Hmono.
  { intros shorter longer seq Hpre [Hlong Hin]%all_matches_elem.
    apply all_matches_elem. split; [by etrans | done]. }
  split_and!.
  - by rewrite relevantSequences_all_matches, all_matches_no_history.
  - intros shorter longer Hpre. split.
    + intros seq Hin. apply (Hmono shorter longer seq Hpre).
      rewrite relevantSequences_all_matches in Hin.
      eapply elem_of_sublist; [done | apply sublist_take].
    + rewrite !relevantSequences_nil. intros Hnone.
      destruct (all_matches corpus longer) as [|seq rest] eqn:E; [done|].
      assert (seq ∈ all_matches corpus shorter) as Hin.
      { apply (Hmono shorter longer seq Hpre). rewrite E. left. }
      rewrite Hnone in Hin. by apply elem_of_nil in Hin.
  - intros history Hshort. apply relevantSequences_nil.
    destruct (all_matches corpus history) as [|seq rest] eqn:E; [done|].
    assert (seq ∈ all_matches corpus history) as [Hpre Hin]%all_matches_elem
      by (rewrite E; left).
    apply prefix_length in Hpre. specialize (Hshort seq Hin). lia.
Qed.

Lemma join_first_line sep line lines :
  ∃ rest, join sep (line :: lines) = line +:+ rest.
Proof.
  destruct lines as [|line' lines]; simpl.
  - exists ""%string. induction line as [|c line IH]; [done|].
    change (String c line +:+ "")%string with (String c (line +:+ "")). by f_equal.
  - by eexists.
Qed.

Lemma example_line_starts seq rest :
  ∃ text, (example_line seq +:+ rest)%string = String "E" text.
Proof. eexists. reflexivity. Qed.

(** X15: the third part of the prompt of the Trained tier.  When no entry
    of the training data starts with the move history, it is the sentence
    that there are no direct examples; otherwise it is the list of the
    retrieved examples, one line for each, and that text is neither empty
    nor the no-examples sentence. *)
Theorem trained_prompt_names_its_examples (b : BoardState) (history : list nat) :
  let examples := relevantSequences trainingData.winningGameSequences history in
  (examples = [] →
     contents (trained_request b history) !! 2
       = Some "No direct examples, rely on your core strategy."%string) ∧
  (examples ≠ [] →
     contents (trained_request b history) !! 2 = Some (join newline (example_line <$> examples)) ∧
     join newline (example_line <$> examples) ≠ ""%string ∧
     join newline (example_line <$> examples)
       ≠ "No direct examples, rely on your core strategy."%string).
Proof.
  cbv zeta. unfold trained_request, relevantExamples. simpl.
  destruct (relevantSequences trainingData.winningGameSequences history) as [|seq rest].
  - split; [done|]. by intros [].
  - split; [done|]. intros _.
    destruct (join_first_line newline (example_line seq) (example_line <$> rest))
      as [tail Htail].
    destruct (example_line_starts seq tail) as [text Htext].
    rewrite fmap_cons, Htail, Htext.
    split_and!; [|done|done]. by rewrite bool_decide_eq_false_2.
Qed.

Lemma trained_prompt_names_its_examples_witness :
  contents (trained_request [] [4; 0]) !! 2
    = Some (join newline
              (example_line <$> relevantSequences trainingData.winningGameSequences [4; 0])) ∧
  contents (trained_request [] [5]) !! 2
    = Some "No direct examples, rely on your core strategy."%string.
Proof.
  split.
  - destruct (trained_prompt_names_its_examples [] [4; 0]) as [_ Hsome].
    apply Hsome. discriminate.
  - destruct (trained_prompt_names_its_examples [] [5]) as [Hnone _].
    apply Hnone. reflexivity.
Defined.

(** ** The board string of the prompts *)

Lemma cell_string_char (cell : Cell) :
  default " "%string (player_string <$> cell) = String (cell_char (Some cell)) "".
Proof. by destruct cell as [[]|]. Qed.

Lemma cell_char_inj (c c' : Cell) : cell_char (Some c) = cell_char (Some c') → c = c'.
Proof. by destruct c as [[]|], c' as [[]|]. Qed.

Lemma board_string_cells b :
  well_formed b →
  String.length (getBoardString b) = 49 ∧
  ∀ i, i < 9 → String.get (cell_position i) (getBoardString b) = Some (cell_char (b !! i)).
Proof.
  unfold well_formed. intros Hlen.
  do 9 (destruct b as [|? b]; [discriminate|]). destruct b; [|discriminate].
  unfold getBoardString, slice. simpl. rewrite !cell_string_char. split; [reflexivity|].
  intros i Hi. do 9 (destruct i as [|i]; [reflexivity|]). lia.
Qed.

(** X16: the board string of the prompts shows every cell.  For a board of
    nine cells it has 49 characters, cell [i] stands at position
    [20 * (i / 3) + 4 * (i mod 3)] as X, O or a blank, and so two boards
    with the same string are the same board. *)
Theorem board_string_shows_every_cell (b : BoardState) :
  well_formed b →
  String.length (getBoardString b) = 49 ∧
  (∀ i, i < 9 → String.get (cell_position i) (getBoardString b) = Some (cell_char (b !! i))) ∧
  (∀ b', well_formed b' → getBoardString b' = getBoardString b → b' = b).
Proof.
  intros Hwf. destruct (board_string_cells b Hwf) as [Hlen Hcells].
  split_and!; [done | done |].
  intros b' Hwf' Hsame. destruct (board_string_cells b' Hwf') as [_ Hcells'].
  apply list_eq. intros i. destruct (decide (i < 9)) as [Hi|Hi].
  - specialize (Hcells i Hi). specialize (Hcells' i Hi).
    rewrite Hsame, Hcells in Hcells'. injection Hcells' as Hchar.
    unfold well_formed in Hwf, Hwf'.
    destruct (lookup_lt_is_Some_2 b i) as [c Hc]; [lia|].
    destruct (lookup_lt_is_Some_2 b' i) as [c' Hc']; [lia|].
    rewrite Hc, Hc' in Hchar |- *. f_equal. symmetry. by apply cell_char_inj.
  - unfold well_formed in Hwf, Hwf'. rewrite !lookup_ge_None_2 by lia. done.
Qed.

Lemma board_string_shows_every_cell_witness :
  String.length (getBoardString [Some X; null; Some O; null; null; null; null; null; null]) = 49 ∧
  String.get (cell_position 2)
    (getBoardString [Some X; null; Some O; null; null; null; null; null; null])
    = Some "O"%char.
Proof.
  destruct (board_string_shows_every_cell
              [Some X; null; Some O; null; null; null; null; null; null] eq_refl)
    as (Hlen & Hcells & _).
  split; [exact Hlen|]. apply (Hcells 2). lia.
Defined.

(** ** [useLocalStorage] *)

(** X17: what the first render reads from the store.  The stored value is
    the default when the store cannot be read, when it has no item under
    the key, when the item is the empty string and when the item does not
    parse; otherwise it is the parsed item.  Reading never fails. *)
Theorem stored_value_or_default {T : Type} (JSON_parse_T : string → Completion T)
    (store : Storage) (key : string) (initialValue : T) :
  (blocked store = true → initialStoredValue JSON_parse_T store key initialValue = initialValue) ∧
  (items store !! key = None →
     initialStoredValue JSON_parse_T store key initialValue = initialValue) ∧
  (items store !! key = Some ""%string →
     initialStoredValue JSON_parse_T store key initialValue = initialValue) ∧
  (∀ text message, items store !! key = Some text → JSON_parse_T text = Throw message →
     initialStoredValue JSON_parse_T store key initialValue = initialValue) ∧
  (∀ text v, blocked store = false → items store !! key = Some text → text ≠ ""%string →
     JSON_parse_T text = Return v →
     initialStoredValue JSON_parse_T store key initialValue = v).
Proof.
  unfold initialStoredValue, getItem. split_and!.
  - by intros ->.
  - intros ->. by destruct (blocked store).
  - intros ->. by destruct (blocked store).
  - intros text message -> Hparse. destruct (blocked store); [done|]. simpl.
    case_bool_decide; [done|]. by rewrite Hparse.
  - intros text v -> -> Hne Hparse. simpl.
    rewrite bool_decide_eq_false_2 by done. by rewrite Hparse.
Qed.

(** X18: a value that was saved is read back.  When the store can be
    written, [setValue] with a value (or with an updater, applied to the
    stored value of the render) sets the state to the new value and stores
    its text under the key; if that text is not empty and parses back to the
    value, a later first render reads the value from the store.  The items
    under the other keys are not touched. *)
Theorem saved_value_is_read_back {T : Type} (JSON_parse_T : string → Completion T)
    (JSON_stringify : T → Completion string)
    (store : Storage) (key : string) (storedValue : T) (value : T + (T → T))
    (text : string) (initialValue : T) :
  let valueToStore := match value with inl v => v | inr f => f storedValue end in
  blocked store = false →
  exhausted store = false →
  JSON_stringify valueToStore = Return text →
  text ≠ ""%string →
  JSON_parse_T text = Return valueToStore →
  fst (setValue JSON_stringify store key storedValue value) = valueToStore ∧
  items (snd (setValue JSON_stringify store key storedValue value)) !! key = Some text ∧
  initialStoredValue JSON_parse_T (snd (setValue JSON_stringify store key storedValue value))
    key initialValue = valueToStore ∧
  ∀ key', key' ≠ key →
    items (snd (setValue JSON_stringify store key storedValue value)) !! key'
      = items store !! key'.
Proof.
  cbv zeta. intros Hblocked Hroom Htext Hne Hparse.
  unfold setValue, setItem. rewrite Htext. simpl. rewrite Hblocked, Hroom. simpl.
  split_and!; [done | by rewrite lookup_insert_eq | |].
  - unfold initialStoredValue, getItem. simpl.
    rewrite lookup_insert_eq. rewrite bool_decide_eq_false_2 by done. by rewrite Hparse.
  - intros key' Hkey. by rewrite lookup_insert_ne.
Qed.

Lemma saved_value_is_read_back_witness :
  fst (setValue (λ n : nat, Return (pretty n)) (mkStorage ∅ false false)
         "tictactoe-games-played" 3 (inr S)) = 4 ∧
  items (snd (setValue (λ n : nat, Return (pretty n)) (mkStorage ∅ false false)
                "tictactoe-games-played" 3 (inr S))) !! "tictactoe-games-played"%string
    = Some "4"%string ∧
  initialStoredValue
    (λ text, if bool_decide (text = "4"%string) then Return 4 else Throw "SyntaxError")
    (snd (setValue (λ n : nat, Return (pretty n)) (mkStorage ∅ false false)
            "tictactoe-games-played" 3 (inr S)))
    "tictactoe-games-played" 0 = 4 ∧
  ∀ key', key' ≠ "tictactoe-games-played"%string →
    items (snd (setValue (λ n : nat, Return (pretty n)) (mkStorage ∅ false false)
                  "tictactoe-games-played" 3 (inr S))) !! key'
      = items (mkStorage ∅ false false) !! key'.
Proof.
  apply (saved_value_is_read_back
           (λ text, if bool_decide (text = "4"%string) then Return 4 else Throw "SyntaxError")
           (λ n : nat, Return (pretty n)) (mkStorage ∅ false false)
           "tictactoe-games-played" 3 (inr S) "4" 0).
  - reflexivity.
  - reflexivity.
  - vm_compute. reflexivity.
  - discriminate.
  - reflexivity.
Defined.

(** X19: a write that fails is swallowed.  When the store cannot be
    written (access refused, no room left) or the value has no JSON text,
    [setValue] still sets the state to the new value and leaves the store
    as it was: the value lives until the page is reloaded. *)
Theorem failed_write_keeps_the_state {T : Type} (JSON_stringify : T → Completion string)
    (store : Storage) (key : string) (storedValue : T) (value : T + (T → T)) :
  let valueToStore := match value with inl v => v | inr f => f storedValue end in
  blocked store = true ∨ exhausted store = true ∨
    (∃ message, JSON_stringify valueToStore = Throw message) →
  setValue JSON_stringify store key storedValue value = (valueToStore, store).
Proof.
  cbv zeta. unfold setValue, setItem.
  destruct (JSON_stringify _) as [text|message]; simpl; [|done].
  intros [->|[Hroom|[message [=]]]]; [done|].
  rewrite Hroom. by destruct (blocked store).
Qed.

Lemma failed_write_keeps_the_state_witness :
  setValue (λ n : nat, Return (pretty n)) (mkStorage ∅ false true)
    "tictactoe-games-played" 3 (inl 4)
  = (4, mkStorage ∅ false true).
Proof.
  apply (failed_write_keeps_the_state (λ n : nat, Return (pretty n)) (mkStorage ∅ false true)
           "tictactoe-games-played" 3 (inl 4)).
  right. by left.
Defined.

(** ** The Medium tier at a winning position *)

(** X20: the Medium tier takes its win and the game ends.  When O wins by
    playing on some cell of the board that [aiMove] was started with, the
    resumed call plays the first such cell of the scan, and the state then
    shows the win of O on a line that O holds, with the AI's score of the
    render that started the call plus one and the commentary of a victory,
    whatever the random number is. *)
Theorem medium_tier_takes_its_win
    (API_KEY : option string) (JSON_parse : string → Completion JSValue)
    (task : Task) (r : Q) (service : Service) (st : AppState) :
  taskDifficulty task = Medium →
  (∃ j, j < 9 ∧ wins_by_playing (currentBoard task) O j) →
  ∃ i l,
    first_winning_cell (currentBoard task) O i ∧
    board (aiMove_resume API_KEY JSON_parse task r service st)
      = array_set (currentBoard task) i (Some O) ∧
    outcome (aiMove_resume API_KEY JSON_parse task r service st) = Win O l ∧
    completed (array_set (currentBoard task) i (Some O)) l O ∧
    scores (aiMove_resume API_KEY JSON_parse task r service st)
      = mkScores (player (taskScores task)) (ai (taskScores task) + 1)
          (draws (taskScores task)) ∧
    aiCommentary (aiMove_resume API_KEY JSON_parse task r service st)
      = "Victory is mine!"%string.
Proof.
  intros Htier (j & Hj & Hwins).
  destruct (findWinningMove (currentBoard task) O) as [i|] eqn:Hfind.
  2: { pose proof (proj1 (findWinningMove_None _ _) Hfind) as Hnone.
       by destruct (Hnone j Hj). }
  pose proof (proj1 (findWinningMove_Some _ _ _) Hfind) as Hfirst.
  destruct Hfirst as (Hi & (Hempty & w & Hw & Hwinner) & Hbefore).
  exists i, (line w).
  split; [by split_and!; [|split; [|exists w]|]|].
  unfold aiMove_resume, select_move. rewrite Htier.
  unfold getMediumAIMove. rewrite Hfind.
  rewrite bool_decide_eq_true_2 by done. simpl.
  unfold checkGameStatus. rewrite Hw. destruct w as [m l]. simpl in *. subst m. simpl.
  split_and!; try done.
  apply checkWinner_first_completed in Hw. by destruct Hw.
Qed.

Lemma medium_tier_takes_its_win_witness :
  ∃ i l,
    first_winning_cell [Some O; Some O; null; Some X; Some X; null; Some X; null; null] O i ∧
    board (aiMove_resume None failing_parser
             (mkTask [Some O; Some O; null; Some X; Some X; null; Some X; null; null]
                [3; 0; 4; 1; 6] Medium (mkScores 0 0 0)) 0 offline_service (app freshSystem))
      = array_set [Some O; Some O; null; Some X; Some X; null; Some X; null; null] i (Some O) ∧
    outcome (aiMove_resume None failing_parser
             (mkTask [Some O; Some O; null; Some X; Some X; null; Some X; null; null]
                [3; 0; 4; 1; 6] Medium (mkScores 0 0 0)) 0 offline_service (app freshSystem))
      = Win O l ∧
    completed (array_set [Some O; Some O; null; Some X; Some X; null; Some X; null; null] i
                 (Some O)) l O ∧
    scores (aiMove_resume None failing_parser
             (mkTask [Some O; Some O; null; Some X; Some X; null; Some X; null; null]
                [3; 0; 4; 1; 6] Medium (mkScores 0 0 0)) 0 offline_service (app freshSystem))
      = mkScores (player (mkScores 0 0 0)) (ai (mkScores 0 0 0) + 1) (draws (mkScores 0 0 0)) ∧
    aiCommentary (aiMove_resume None failing_parser
             (mkTask [Some O; Some O; null; Some X; Some X; null; Some X; null; null]
                [3; 0; 4; 1; 6] Medium (mkScores 0 0 0)) 0 offline_service (app freshSystem))
      = "Victory is mine!"%string.
Proof.
  apply (medium_tier_takes_its_win None failing_parser
           (mkTask [Some O; Some O; null; Some X; Some X; null; Some X; null; null]
              [3; 0; 4; 1; 6] Medium (mkScores 0 0 0)) 0 offline_service (app freshSystem)).
  - reflexivity.
  - exists 2. split; [lia|]. split; [reflexivity|].
    exists (mkWinnerInfo O (0, 1, 2)). split; reflexivity.
Defined.
